(** * RBF: regularized radial-basis-function interpolation

    A shallow embedding of [rbf/interpolant.py]: the system-matrix builders
    ([coefficient_matrix], [regularization_matrix], [interpolation_matrix]),
    the damped least-squares solver ([find_coeff]), the convex-hull gate
    ([in_hull]) and the [RBFInterpolant] class (constructor and call).

    Numbers.  The source computes on numpy [float64] arrays.  The embedding is
    parametric in the scalar type: a class [Scalar] lists the operations the
    source uses and assumes no law about them, so that every statement holds
    for any arithmetic, IEEE binary64 included.  Where a statement identifies
    two differently associated sums, or needs the comparisons to order the
    values, the condition is a hypothesis on the data at hand
    ([score_exact_at], [ordered_on]); the laws of exact arithmetic
    ([ExactArith]) give the first for all data.  Two instances are given: [Z]
    (exact) and the kernel's binary64 floats.

    Arrays.  A 2-D [ndarray] is a record of its shape and its rows; a 1-D
    array is a list.  Every operation checks shapes the way numpy does
    (broadcasting included) and raises where numpy raises.

    Store.  The constructor multiplies [value] in place; the caller's arrays
    live in a store ([gmap loc (list F)]) and the constructor threads it. *)

From Stdlib Require Import List ZArith Lia Bool PrimFloat Floats.
From stdpp Require Import gmap strings.
Import ListNotations.

Set Default Proof Using "Type".

(** ** Scalars *)

(** The operations of the source on one [float64].  [of_int] is the
    conversion of a Python [int] (literals such as [0], [2], [10], and the
    model size [M]); [fle x y] is [x <= y], and the source's [x >= y] is read
    as [fle y x]; [fminimum] and [fmaximum] are the binary steps of [np.min]
    and [np.max]. *)
Class Scalar (F : Type) := {
  of_int : Z -> F;
  fadd : F -> F -> F;
  fsub : F -> F -> F;
  fmul : F -> F -> F;
  fdiv : F -> F -> F;
  fpow : F -> F -> F;
  fle : F -> F -> bool;
  fminimum : F -> F -> F;
  fmaximum : F -> F -> F
}.

(** The laws of exact arithmetic that the trace identity and the change of
    variable [10^(2d) = (10^d)^2] rest on.  Floating-point addition is not
    associative: binary64 is no instance. *)
Class ExactArith (F : Type) `{Scalar F} : Prop := {
  fadd_assoc : forall a b c : F, fadd a (fadd b c) = fadd (fadd a b) c;
  fadd_0_l : forall a : F, fadd (of_int 0) a = a;
  fadd_0_r : forall a : F, fadd a (of_int 0) = a;
  fpow_10_double : forall d : F,
    fpow (of_int 10) (fmul (of_int 2) d) = fpow (fpow (of_int 10) d) (of_int 2)
}.

(** ** Results: a value, a Python exception, or fuel exhausted *)

Inductive exn : Type :=
| ValueError      (* numpy: shapes do not broadcast, negative dimension, empty reduction *)
| IndexError      (* index out of bounds, boolean mask of the wrong length *)
| AttributeError  (* [L.T] on the int that [sum] returns for no term *)
| LinAlgError     (* scipy.linalg / numpy.linalg failures *)
| QhullError      (* scipy.spatial.Delaunay failures *)
| UnboundRef.     (* a reference that the store does not hold: no Python value *)

Inductive res (A : Type) : Type :=
| Ok (a : A)
| Raise (e : exn)
| NoFuel.
Arguments Ok {A} a.
Arguments Raise {A} e.
Arguments NoFuel {A}.

Definition bind {A B : Type} (m : res A) (k : A -> res B) : res B :=
  match m with
  | Ok a => k a
  | Raise e => Raise e
  | NoFuel => NoFuel
  end.

Notation "x <- m ;; k" := (bind m (fun x => k))
  (at level 100, m at next level, right associativity).

Definition is_ok {A : Type} (m : res A) : bool :=
  match m with Ok _ => true | _ => false end.

(** ** Arrays *)

Section Arrays.
Context {F : Type} `{Scalar F}.

(** A 2-D ndarray: [shape = (nrows, ncols)] and the rows.  Entries are read
    through [mget] and every operation below builds its result with
    [tabulate], so results are rectangular by construction. *)
Record matrix : Type := Matrix {
  nrows : nat;
  ncols : nat;
  rows : list (list F)
}.

Definition mget (A : matrix) (i j : nat) : F :=
  nth j (nth i (rows A) []) (of_int 0).

Definition tabulate (r c : nat) (f : nat -> nat -> F) : matrix :=
  Matrix r c (map (fun i => map (fun j => f i j) (seq 0 c)) (seq 0 r)).

(** [A[i]] as a 1-D array. *)
Definition row (A : matrix) (i : nat) : list F :=
  map (fun j => mget A i j) (seq 0 (ncols A)).

(** [np.zeros((r,c))] and [np.zeros(n)], [np.ones(n)]. *)
Definition zeros (r c : nat) : matrix := tabulate r c (fun _ _ => of_int 0).
Definition zeros1 (n : nat) : list F := repeat (of_int 0) n.
Definition ones1 (n : nat) : list F := repeat (of_int 1) n.

(** [A.T] *)
Definition transpose (A : matrix) : matrix :=
  tabulate (ncols A) (nrows A) (fun i j => mget A j i).

(** Summation as numpy's reductions and products use it: the terms are added
    left to right onto zero. *)
Definition fsum (l : list F) : F := fold_left fadd l (of_int 0).

(** numpy broadcasting of one dimension: equal sizes, or one of them is 1. *)
Definition bdim (a b : nat) : option nat :=
  if a =? b then Some a
  else if a =? 1 then Some b
  else if b =? 1 then Some a
  else None.

(** Reading [A] as if broadcast: an axis of size 1 is repeated. *)
Definition bget (A : matrix) (i j : nat) : F :=
  mget A (if nrows A =? 1 then 0 else i) (if ncols A =? 1 then 0 else j).

(** An elementwise binary operation [A op B] with broadcasting. *)
Definition ew2 (op : F -> F -> F) (A B : matrix) : res matrix :=
  match bdim (nrows A) (nrows B), bdim (ncols A) (ncols B) with
  | Some r, Some c => Ok (tabulate r c (fun i j => op (bget A i j) (bget B i j)))
  | _, _ => Raise ValueError
  end.

(** [B] broadcast to the shape [(r,c)] of an assignment target. *)
Definition broadcast_to (r c : nat) (B : matrix) : res matrix :=
  if ((nrows B =? r) || (nrows B =? 1)) && ((ncols B =? c) || (ncols B =? 1))
  then Ok (tabulate r c (fun i j => bget B i j))
  else Raise ValueError.

(** [A[r0:r1, c0:c1] = B]: a slice is clipped to the array, and [B] is
    broadcast to the shape of the clipped block. *)
Definition set_block (A : matrix) (r0 r1 c0 c1 : nat) (B : matrix) : res matrix :=
  let r1 := Nat.min r1 (nrows A) in
  let c1 := Nat.min c1 (ncols A) in
  B' <- broadcast_to (r1 - r0) (c1 - c0) B ;;
  Ok (tabulate (nrows A) (ncols A) (fun i j =>
        if (r0 <=? i) && (i <? r1) && (c0 <=? j) && (j <? c1)
        then mget B' (i - r0) (j - c0)
        else mget A i j)).

(** [A[:n,:] *= w[:,None]]: the first [n] rows of [A], in place, times the
    column [w]. *)
Definition column (w : list F) : matrix :=
  tabulate (length w) 1 (fun i _ => nth i w (of_int 0)).

Definition scale_rows (A : matrix) (n : nat) (w : list F) : res matrix :=
  let n := Nat.min n (nrows A) in
  W <- broadcast_to n (ncols A) (column w) ;;
  Ok (tabulate (nrows A) (ncols A) (fun i j =>
        if i <? n then fmul (mget A i j) (mget W i j) else mget A i j)).

(** [c * A] and [c + A] for a scalar [c]. *)
Definition smul (c : F) (A : matrix) : matrix :=
  tabulate (nrows A) (ncols A) (fun i j => fmul c (mget A i j)).
Definition sadd (c : F) (A : matrix) : matrix :=
  tabulate (nrows A) (ncols A) (fun i j => fadd c (mget A i j)).

(** [A.dot(B)] for 2-D [A], [B]. *)
Definition dot (A B : matrix) : res matrix :=
  if ncols A =? nrows B
  then Ok (tabulate (nrows A) (ncols B) (fun i j =>
             fsum (map (fun k => fmul (mget A i k) (mget B k j)) (seq 0 (ncols A)))))
  else Raise ValueError.

(** [A.dot(v)] for 2-D [A] and 1-D [v]. *)
Definition dotv (A : matrix) (v : list F) : res (list F) :=
  if ncols A =? length v
  then Ok (map (fun i =>
             fsum (map (fun k => fmul (mget A i k) (nth k v (of_int 0))) (seq 0 (ncols A))))
           (seq 0 (nrows A)))
  else Raise ValueError.

(** Broadcasting of two 1-D arrays under an elementwise operation. *)
Definition vget (v : list F) (i : nat) : F :=
  nth (if length v =? 1 then 0 else i) v (of_int 0).

(** [np.einsum('ij,j...->i...',A,v)] for a 1-D [v].  Unlike [dot], [einsum]
    broadcasts the summed axis: a one-entry [v] is repeated along the columns
    of [A], and a one-column [A] along the entries of [v]; any other
    disagreement of the two sizes raises. *)
Definition einsum_ij_j (A : matrix) (v : list F) : res (list F) :=
  match bdim (ncols A) (length v) with
  | Some J =>
      Ok (map (fun i =>
            fsum (map (fun k =>
                    fmul (mget A i (if ncols A =? 1 then 0 else k)) (vget v k))
                  (seq 0 J)))
          (seq 0 (nrows A)))
  | None => Raise ValueError
  end.

Definition vew2 (op : F -> F -> F) (u v : list F) : res (list F) :=
  match bdim (length u) (length v) with
  | Some n => Ok (map (fun i => op (vget u i) (vget v i)) (seq 0 n))
  | None => Raise ValueError
  end.

(** [u op= v] on 1-D arrays: the result must have the shape of [u]. *)
Definition vew2_inplace (op : F -> F -> F) (u v : list F) : res (list F) :=
  if (length v =? length u) || (length v =? 1)
  then Ok (map (fun i => op (nth i u (of_int 0)) (vget v i)) (seq 0 (length u)))
  else Raise ValueError.

(** [u.dot(v)] for 1-D arrays. *)
Definition vdot (u v : list F) : res F :=
  if length u =? length v
  then Ok (fsum (map (fun k => fmul (nth k u (of_int 0)) (nth k v (of_int 0)))
                     (seq 0 (length u))))
  else Raise ValueError.

(** [np.sum(A)]: all entries, row after row. *)
Definition msum (A : matrix) : F :=
  fsum (concat (map (row A) (seq 0 (nrows A)))).

(** [np.min(A)] and [np.max(A)]: a reduction with no identity. *)
Definition reduce1 (op : F -> F -> F) (l : list F) : res F :=
  match l with
  | [] => Raise ValueError
  | a :: l' => Ok (fold_left op l' a)
  end.
Definition flatten (A : matrix) : list F := concat (map (row A) (seq 0 (nrows A))).
Definition np_min (A : matrix) : res F := reduce1 fminimum (flatten A).
Definition np_max (A : matrix) : res F := reduce1 fmaximum (flatten A).

(** [A[idx]] for a list of in-range row indices. *)
Definition take_rows (A : matrix) (idx : list nat) : matrix :=
  tabulate (length idx) (ncols A) (fun i j => mget A (nth i idx 0) j).

End Arrays.

Arguments matrix F : clear implicits.

(** ** Collaborators that are not in [rbf/interpolant.py] *)

(** What the module calls and does not define.  [phi] and [monomial] are the
    entries that [rbf.basis] and [rbf.poly.mvmonos] compute (see [basis] and
    [mvmonos] below), [monomial_powers] is [rbf.poly.monomial_powers];
    [linalg_inv], [linalg_cond], [optimize_fmin] and [delaunay_find_simplex]
    are [scipy.linalg.inv], [np.linalg.cond], [scipy.optimize.fmin] and
    [scipy.spatial.Delaunay(hull).find_simplex(p)].  Nothing is assumed about
    any of them; each library call may raise. *)
Class Collaborators (F : Type) `{Scalar F} := {
  phi : option (list nat) -> list F -> list F -> F -> F;
  monomial : option (list nat) -> list F -> list nat -> F;
  monomial_powers : nat -> nat -> list (list nat);
  linalg_inv : matrix F -> res (matrix F);
  linalg_cond : matrix F -> res F;
  optimize_fmin : (F -> res F) -> F -> res F;
  delaunay_find_simplex : matrix F -> matrix F -> res (list Z)
}.

(** The damping argument of [find_coeff]: a number, or the string ['gcv']. *)
Inductive damping (F : Type) : Type :=
| Fixed (d : F)
| GCV.
Arguments Fixed {F} d.
Arguments GCV {F}.

Section Builders.
Context {F : Type} `{Collaborators F}.

(** Modelled from the spec: [rbf.basis] (the default [phs3] and its
    siblings) is not among the sources.  By sections 2 and 6 of the spec the
    evaluator takes two point sets, one shape parameter per center and an
    optional derivative multi-index, and returns the
    [|pointsA| x |pointsB|] matrix of basis-function values: entry [(i,j)] is
    the value [phi diff a_i b_j eps_j] between query point [i] and center
    [j].  A shape-parameter vector whose length is not the number of centers
    is a dimension mismatch. *)
Definition basis (xa xb : matrix F) (eps : list F) (diff : option (list nat))
  : res (matrix F) :=
  if length eps =? nrows xb
  then Ok (tabulate (nrows xa) (nrows xb) (fun i j =>
             phi diff (row xa i) (row xb j) (nth j eps (of_int 0))))
  else Raise ValueError.

(** Modelled from the spec: [rbf.poly.mvmonos] is not among the sources.
    By section 4.1 of the spec it returns, for each point and each exponent
    tuple, the value of the monomial (or of its [diff] derivative) there. *)
Definition mvmonos (x : matrix F) (powers : list (list nat)) (diff : option (list nat))
  : matrix F :=
  tabulate (nrows x) (length powers) (fun i j =>
    monomial diff (row x i) (nth j powers [])).

(** [product_trace(A,B) = np.sum(A*B.T)] (lines 12-17) *)
Definition product_trace (A B : matrix F) : res F :=
  AB <- ew2 fmul A (transpose B) ;;
  Ok (msum AB).

(** [np.eye(dim,dtype=int)] as its rows. *)
Definition eye (dim : nat) : list (list nat) :=
  map (fun i => map (fun j => if i =? j then 1 else 0) (seq 0 dim)) (seq 0 dim).

(** [laplacian_diff_op(dim)] (lines 20-36): one [[1.0, tuple(2*i)]] per row
    [i] of the identity. *)
Definition laplacian_diff_op (dim : nat) : list (F * list nat) :=
  map (fun i => (of_int 1, map (fun e => 2 * e) i)) (eye dim).

(** [coefficient_matrix(x,eps,basis,order)] (lines 39-65) *)
Definition coefficient_matrix (x : matrix F) (eps : list F) (order : nat)
  : res (matrix F) :=
  let N := nrows x in
  let D := ncols x in
  let powers := monomial_powers order D in
  let P := length powers in
  let A := zeros (N + P) (N + P) in
  B <- basis x x eps None ;;
  A <- set_block A 0 N 0 N B ;;
  let Ap := mvmonos x powers None in
  A <- set_block A N (N + P) 0 N (transpose Ap) ;;
  A <- set_block A 0 N N (N + P) Ap ;;
  Ok A.

(** [regularization_matrix(x,eps,basis,order,diff)] (lines 68-78) *)
Definition regularization_matrix (x : matrix F) (eps : list F) (order : nat)
  (diff : option (list nat)) : res (matrix F) :=
  let N := nrows x in
  let D := ncols x in
  let powers := monomial_powers order D in
  let P := length powers in
  let A := zeros N (N + P) in
  B <- basis x x eps diff ;;
  A <- set_block A 0 N 0 N B ;;
  A <- set_block A 0 N N (N + P) (mvmonos x powers diff) ;;
  Ok A.

(** [interpolation_matrix(xitp,x,diff,eps,basis,order)] (lines 81-96) *)
Definition interpolation_matrix (xitp x : matrix F) (diff : option (list nat))
  (eps : list F) (order : nat) : res (matrix F) :=
  let I := nrows xitp in
  let D := ncols xitp in
  let N := nrows x in
  let powers := monomial_powers order D in
  let P := length powers in
  let A := zeros I (N + P) in
  B <- basis xitp x eps diff ;;
  A <- set_block A 0 I 0 N B ;;
  A <- set_block A 0 I N (N + P) (mvmonos xitp powers diff) ;;
  Ok A.

(** The closure [predictive_error] of [find_coeff] (lines 125-134), with the
    variables it captures ([A], the extended [value], [ATA], [LTL], [M]) as
    arguments. *)
Definition predictive_error (A : matrix F) (value : list F) (ATA LTL : matrix F)
  (M : nat) (d : F) : res F :=
  let d := fpow (of_int 10) d in
  X <- ew2 fadd ATA (smul (fpow d (of_int 2)) LTL) ;;
  Xi <- linalg_inv X ;;
  A_ginv <- dot Xi (transpose A) ;;
  coeff <- dotv A_ginv value ;;
  predicted <- dotv A coeff ;;
  residual <- vew2 fsub predicted value ;;
  misfit <- vdot residual residual ;;
  let numerator := fmul (of_int (Z.of_nat M)) misfit in
  pt <- product_trace A A_ginv ;;
  let denominator := fpow (fsub (of_int (Z.of_nat M)) pt) (of_int 2) in
  Ok (fdiv numerator denominator).

(** [find_coeff(A,L,value,damping)] (lines 98-142).  [P = A.shape[0] - N] is
    a Python int and [np.zeros(P)] raises when it is negative.  The condition
    number of [ATA] is computed for printing; standard output is not
    modelled.  The minimizer returns a one-element array, which acts as a
    scalar in [10**damping] and [damping**2*LTL]. *)
Definition find_coeff (A L : matrix F) (value : list F) (dmp : damping F)
  : res (list F) :=
  let N := length value in
  if nrows A <? N then Raise ValueError else
  let P := nrows A - N in
  let M := P + N in
  let value := value ++ zeros1 P in
  ATA <- dot (transpose A) A ;;
  _ <- linalg_cond ATA ;;
  LTL <- dot (transpose L) L ;;
  dmp <- match dmp with
         | GCV =>
             d <- optimize_fmin (predictive_error A value ATA LTL M) (of_int 0) ;;
             Ok (fpow (of_int 10) d)
         | Fixed d => Ok d
         end ;;
  X <- ew2 fadd ATA (smul (fpow dmp (of_int 2)) LTL) ;;
  Xi <- linalg_inv X ;;
  A_ginv <- dot Xi (transpose A) ;;
  dotv A_ginv value.

(** [in_hull(p,hull)] (lines 145-157) *)
Definition in_hull (p hull : matrix F) : res (list bool) :=
  let dim := ncols p in
  if 2 <=? dim then
    s <- delaunay_find_simplex hull p ;;
    Ok (map (fun k => (0 <=? k)%Z) s)
  else
    mn <- np_min hull ;;
    mx <- np_max hull ;;
    if ncols p =? 0 then Raise IndexError else
    Ok (map (fun i => fle mn (mget p i 0) && fle (mget p i 0) mx) (seq 0 (nrows p))).

End Builders.

(** ** The caller's arrays *)

(** A 1-D argument as the caller passes it: a Python list (which
    [np.asarray] copies into a fresh array) or an ndarray, held by reference
    ([np.asarray] returns the very same object).  Views that share a buffer
    with another array are not modelled: every reference owns its data. *)
Definition loc : Type := nat.

Inductive arg1d (F : Type) : Type :=
| PyList (l : list F)
| NdArray (r : loc).
Arguments PyList {F} l.
Arguments NdArray {F} r.

Section Interpolant.
Context {F : Type} `{Collaborators F}.

(** [np.asarray(a)] read at the current store. *)
Definition asarray (h : gmap loc (list F)) (a : arg1d F) : res (list F) :=
  match a with
  | PyList l => Ok l
  | NdArray r =>
      match h !! r with
      | Some l => Ok l
      | None => Raise UnboundRef
      end
  end.

(** [value *= weight] (line 234).  On an ndarray the product is stored in place, in the
    array the caller holds; on a list, [list.__imul__] does not apply to an
    array operand and numpy's reflected multiplication returns a new array,
    which only rebinds the local name. *)
Definition imul_value (value : arg1d F) (weight : list F) (h : gmap loc (list F))
  : res (list F) * gmap loc (list F) :=
  match value with
  | NdArray r =>
      match h !! r with
      | Some v =>
          match vew2_inplace fmul v weight with
          | Ok v' => (Ok v', <[r := v']> h)
          | Raise e => (Raise e, h)
          | NoFuel => (NoFuel, h)
          end
      | None => (Raise UnboundRef, h)
      end
  | PyList l => (vew2 fmul l weight, h)
  end.

(** What the builtin [sum] returns: the int [0] for no term, an array
    otherwise. *)
Inductive pysum : Type :=
| SumInt0
| SumArr (m : matrix F).

(** The remaining terms of [sum(c*regularization_matrix(...) for c,d in
    laplacian)], added onto [acc] as the generator yields them. *)
Fixpoint sum_terms (x : matrix F) (eps : list F) (order : nat)
  (terms : list (F * list nat)) (acc : matrix F) : res (matrix F) :=
  match terms with
  | [] => Ok acc
  | (c, d) :: ts =>
      R <- regularization_matrix x eps order (Some d) ;;
      acc' <- ew2 fadd acc (smul c R) ;;
      sum_terms x eps order ts acc'
  end.

(** Lines 237-239: [np.sum] of a generator is the builtin [sum], which
    starts from the int [0]. *)
Definition laplacian_matrix (x : matrix F) (eps : list F) (order : nat) : res pysum :=
  match laplacian_diff_op (ncols x) with
  | [] => Ok SumInt0
  | (c, d) :: ts =>
      R <- regularization_matrix x eps order (Some d) ;;
      L <- sum_terms x eps order ts (sadd (of_int 0) (smul c R)) ;;
      Ok (SumArr L)
  end.

(** [find_coeff] when [L] is the int [0] (no spatial dimension): lines
    108-120 run as usual and [L.T] raises. *)
Definition find_coeff_int_L (A : matrix F) (value : list F) : res (list F) :=
  if nrows A <? length value then Raise ValueError else
  ATA <- dot (transpose A) A ;;
  _ <- linalg_cond ATA ;;
  Raise AttributeError.

(** The linear system that [__init__] hands to [find_coeff]. *)
Record system : Type := System {
  sys_A : matrix F;
  sys_L : pysum;
  sys_value : list F;
  sys_eps : list F
}.

(** Lines 216-239 of [RBFInterpolant.__init__]: the weighted matrix, the
    weighted observations and the regularization matrix. *)
Definition fit_system (x : matrix F) (value : arg1d F) (weight : option (arg1d F))
  (eps : option (list F)) (order : nat) (h : gmap loc (list F))
  : res system * gmap loc (list F) :=
  let N := nrows x in
  let eps := match eps with None => ones1 N | Some e => e end in
  match (match weight with None => Ok (ones1 N) | Some w => asarray h w end) with
  | Ok weight =>
      match (A <- coefficient_matrix x eps order ;; scale_rows A N weight) with
      | Ok A =>
          let (v, h') := imul_value value weight h in
          (value <- v ;;
           L <- laplacian_matrix x eps order ;;
           Ok (System A L value eps), h')
      | Raise e => (Raise e, h)
      | NoFuel => (NoFuel, h)
      end
  | Raise e => (Raise e, h)
  | NoFuel => (NoFuel, h)
  end.

(** The fitted object: [self.x], [self.coeff], [self.order], [self.eps],
    [self.extrapolate], [self.fill] (the basis is [phi]). *)
Record interpolant : Type := Interpolant {
  itp_x : matrix F;
  itp_coeff : list F;
  itp_order : nat;
  itp_eps : list F;
  itp_extrapolate : bool;
  itp_fill : F
}.

(** [RBFInterpolant.__init__] (lines 180-249): the result and the store it
    leaves. *)
Definition RBFInterpolant_init (x : matrix F) (value : arg1d F)
  (weight : option (arg1d F)) (eps : option (list F)) (order : nat)
  (extrapolate : bool) (fill : F) (penalty : damping F) (h : gmap loc (list F))
  : res interpolant * gmap loc (list F) :=
  let (s, h') := fit_system x value weight eps order h in
  (s <- s ;;
   coeff <- match sys_L s with
            | SumArr L => find_coeff (sys_A s) L (sys_value s) penalty
            | SumInt0 => find_coeff_int_L (sys_A s) (sys_value s)
            end ;;
   Ok (Interpolant x coeff order (sys_eps s) extrapolate fill), h').

(** [out[idx] = vals] for an index list: the indices must be in range and
    [vals] must broadcast to them; the entries are stored one after the
    other. *)
Definition assign_at (out : list F) (idx : list nat) (vals : list F) : res (list F) :=
  if negb (forallb (fun i => i <? length out) idx) then Raise IndexError
  else if (length vals =? length idx) || (length vals =? 1)
  then Ok (fold_left (fun o iv => <[fst iv := snd iv]> o)
             (combine idx (map (vget vals) (seq 0 (length idx)))) out)
  else Raise ValueError.

(** [out[~mask] = fill] *)
Definition fill_outside (out : list F) (mask : list bool) (fill : F) : res (list F) :=
  if length mask =? length out
  then Ok (map (fun i => if nth i mask true then nth i out (of_int 0) else fill)
             (seq 0 (length out)))
  else Raise IndexError.

(** The [while n < Nitp] loop of [__call__] (lines 274-281), for a chunk
    size [chunk]; [idx] is [range(n,min(n+chunk,Nitp))]. *)
Fixpoint call_loop (fuel chunk : nat) (itp : interpolant) (xitp : matrix F)
  (diff : option (list nat)) (n : nat) (out : list F) : res (list F) :=
  if n <? nrows xitp then
    match fuel with
    | 0 => NoFuel
    | S fuel' =>
        let idx := seq n (Nat.min (n + chunk) (nrows xitp) - n) in
        A <- interpolation_matrix (take_rows xitp idx) (itp_x itp) diff
               (itp_eps itp) (itp_order itp) ;;
        vals <- einsum_ij_j A (itp_coeff itp) ;;
        out' <- assign_at out idx vals ;;
        call_loop fuel' chunk itp xitp diff (n + chunk) out'
    end
  else Ok out.

(** [__call__] (lines 251-288) with the chunk size as a parameter. *)
Definition call_with (chunk fuel : nat) (itp : interpolant) (xitp : matrix F)
  (diff : option (list nat)) : res (list F) :=
  out <- call_loop fuel chunk itp xitp diff 0 (zeros1 (nrows xitp)) ;;
  if negb (itp_extrapolate itp) then
    mask <- in_hull xitp (itp_x itp) ;;
    fill_outside out mask (itp_fill itp)
  else Ok out.

(** [max_chunk = 100000] *)
Definition max_chunk : nat := 100 * 1000.

(** [RBFInterpolant.__call__] as the source runs it. *)
Definition RBFInterpolant_call (fuel : nat) (itp : interpolant) (xitp : matrix F)
  (diff : option (list nat)) : res (list F) :=
  call_with max_chunk fuel itp xitp diff.

End Interpolant.

Arguments pysum F : clear implicits.
Arguments system F : clear implicits.
Arguments interpolant F : clear implicits.

(** ** Instances used by the examples *)

(** Exact integers. *)
#[export] Instance Z_scalar : Scalar Z := {
  of_int := fun z => z;
  fadd := Z.add;
  fsub := Z.sub;
  fmul := Z.mul;
  fdiv := Z.div;
  fpow := Z.pow;
  fle := Z.leb;
  fminimum := Z.min;
  fmaximum := Z.max
}.

(** IEEE binary64, on the kernel's floats.  An int converts exactly when it
    fits the mantissa.  The kernel has no [pow]: [float_pow] is exact for the
    exponents the examples reach ([x**0], [x**1], [x**2]) and is not a
    number elsewhere.  [np.minimum] and [np.maximum] propagate a nan. *)
Fixpoint float_of_pos (p : positive) : float :=
  match p with
  | xH => PrimFloat.one
  | xO q => PrimFloat.mul PrimFloat.two (float_of_pos q)
  | xI q => PrimFloat.add (PrimFloat.mul PrimFloat.two (float_of_pos q)) PrimFloat.one
  end.

Definition float_of_Z (z : Z) : float :=
  match z with
  | Z0 => PrimFloat.zero
  | Zpos p => float_of_pos p
  | Zneg p => PrimFloat.opp (float_of_pos p)
  end.

Definition float_pow (x y : float) : float :=
  if PrimFloat.eqb y PrimFloat.zero then PrimFloat.one
  else if PrimFloat.eqb y PrimFloat.one then x
  else if PrimFloat.eqb y PrimFloat.two then PrimFloat.mul x x
  else PrimFloat.nan.

Definition float_minimum (a b : float) : float :=
  if PrimFloat.is_nan a then a
  else if PrimFloat.is_nan b then b
  else if PrimFloat.leb a b then a else b.

Definition float_maximum (a b : float) : float :=
  if PrimFloat.is_nan a then a
  else if PrimFloat.is_nan b then b
  else if PrimFloat.leb a b then b else a.

#[export] Instance float_scalar : Scalar float := {
  of_int := float_of_Z;
  fadd := PrimFloat.add;
  fsub := PrimFloat.sub;
  fmul := PrimFloat.mul;
  fdiv := PrimFloat.div;
  fpow := float_pow;
  fle := PrimFloat.leb;
  fminimum := float_minimum;
  fmaximum := float_maximum
}.

Section Examples.
Context {F : Type} `{Scalar F}.

Definition is_zero (a : F) : bool := fle a (of_int 0) && fle (of_int 0) a.
Definition fabs (a : F) : F := if fle (of_int 0) a then a else fsub (of_int 0) a.

(** A cubic kernel in the first coordinate: [(eps*|a-b|)**3], its first
    derivative [3*eps**3*|a-b|*(a-b)] and its second derivative
    [6*eps**3*|a-b|] in that coordinate; a derivative in any other
    coordinate is zero; higher derivatives are not provided. *)
Definition cubic_kernel (diff : option (list nat)) (a b : list F) (e : F) : F :=
  let t := fsub (nth 0 a (of_int 0)) (nth 0 b (of_int 0)) in
  let r := fabs t in
  let e3 := fmul (fmul e e) e in
  match diff with
  | None | Some [] => fmul e3 (fmul (fmul r r) r)
  | Some (k :: rest) =>
      if existsb (fun n => negb (n =? 0)) rest then of_int 0
      else match k with
           | 0 => fmul e3 (fmul (fmul r r) r)
           | 1 => fmul (of_int 3) (fmul e3 (fmul r t))
           | _ => fmul (of_int 6) (fmul e3 r)
           end
  end.

(** [x**n] by repeated multiplication, the falling factorial
    [a*(a-1)*...*(a-d+1)], and the [diff] derivative of the monomial with
    exponents [pw] at the point [p]. *)
Fixpoint ipow (x : F) (n : nat) : F :=
  match n with
  | 0 => of_int 1
  | S n' => fmul x (ipow x n')
  end.

Fixpoint falling (a d : nat) : nat :=
  match d with
  | 0 => 1
  | S d' => a * falling (a - 1) d'
  end.

Fixpoint monomial_value (diff : list nat) (p : list F) (pw : list nat) : F :=
  match pw with
  | [] => of_int 1
  | a :: pw' =>
      let d := hd 0 diff in
      let x := hd (of_int 0) p in
      let t := if a <? d then of_int 0
               else fmul (of_int (Z.of_nat (falling a d))) (ipow x (a - d)) in
      fmul t (monomial_value (tl diff) (tl p) pw')
  end.

Definition example_monomial (diff : option (list nat)) (p : list F) (pw : list nat) : F :=
  monomial_value (match diff with None => [] | Some d => d end) p pw.

(** All [dim]-tuples of naturals whose sum is at most [order]. *)
Fixpoint example_powers (order dim : nat) : list (list nat) :=
  match dim with
  | 0 => [[]]
  | S dim' =>
      flat_map (fun k => map (cons k) (example_powers (order - k) dim'))
               (seq 0 (S order))
  end.

(** The inverse of a diagonal matrix: [scipy.linalg.inv] rejects a matrix
    that is not square and one with a zero pivot.  A matrix with an entry off
    the diagonal is outside this instance (no result). *)
Definition diag_inv (X : matrix F) : res (matrix F) :=
  let n := nrows X in
  if negb (n =? ncols X) then Raise ValueError
  else if negb (forallb (fun i => forallb (fun j => (i =? j) || is_zero (mget X i j))
                                    (seq 0 n)) (seq 0 n))
  then NoFuel
  else if existsb (fun i => is_zero (mget X i i)) (seq 0 n) then Raise LinAlgError
  else Ok (tabulate n n (fun i j =>
             if i =? j then fdiv (of_int 1) (mget X i i) else of_int 0)).

(** [np.linalg.cond] of a diagonal matrix: largest over smallest absolute
    diagonal entry; it raises on an empty matrix. *)
Definition diag_cond (X : matrix F) : res F :=
  let d := map (fun i => fabs (mget X i i)) (seq 0 (nrows X)) in
  match d with
  | [] => Raise LinAlgError
  | a :: d' => Ok (fdiv (fold_left fmaximum d' a) (fold_left fminimum d' a))
  end.

(** A minimizer that evaluates the objective at the initial guess and returns
    the guess: what Nelder-Mead returns when the objective is nan on the whole
    simplex (no comparison succeeds, the simplex shrinks onto its first
    vertex). *)
Definition fmin_start (f : F -> res F) (x0 : F) : res F :=
  _ <- f x0 ;; Ok x0.

(** The triangulation of three points of the plane is their triangle:
    simplex [0] for a point with non-negative barycentric coordinates, [-1]
    otherwise.  Qhull fails on any other input of this instance. *)
Definition cross (o a b : list F) : F :=
  fsub (fmul (fsub (nth 0 a (of_int 0)) (nth 0 o (of_int 0)))
             (fsub (nth 1 b (of_int 0)) (nth 1 o (of_int 0))))
       (fmul (fsub (nth 1 a (of_int 0)) (nth 1 o (of_int 0)))
             (fsub (nth 0 b (of_int 0)) (nth 0 o (of_int 0)))).

Definition triangle_find_simplex (hull p : matrix F) : res (list Z) :=
  if (nrows hull =? 3) && (ncols hull =? 2) && (ncols p =? 2) then
    let a := row hull 0 in
    let b := row hull 1 in
    let c := row hull 2 in
    let area := cross a b c in
    if is_zero area then Raise QhullError
    else Ok (map (fun i =>
           let q := row p i in
           let s1 := cross a b q in
           let s2 := cross b c q in
           let s3 := cross c a q in
           if (fle (of_int 0) s1 && fle (of_int 0) s2 && fle (of_int 0) s3)
              || (fle s1 (of_int 0) && fle s2 (of_int 0) && fle s3 (of_int 0))
           then 0%Z else (-1)%Z) (seq 0 (nrows p)))
  else Raise QhullError.

#[export] Instance example_collaborators : Collaborators F := {
  phi := cubic_kernel;
  monomial := example_monomial;
  monomial_powers := example_powers;
  linalg_inv := diag_inv;
  linalg_cond := diag_cond;
  optimize_fmin := fmin_start;
  delaunay_find_simplex := triangle_find_simplex
}.

(** [np.array(rows)] for a non-empty list of rows of equal length. *)
Definition of_rows (l : list (list F)) : matrix F :=
  Matrix (length l) (length (hd [] l)) l.

End Examples.

(** ** Definitions that follow the words of the specification *)

Section SpecDefinitions.
Context {F : Type} `{Collaborators F}.

(** The Gram matrix [XᵗX]. *)
Definition gram (X : matrix F) : matrix F :=
  tabulate (ncols X) (ncols X) (fun i j =>
    fsum (map (fun k => fmul (mget X k i) (mget X k j)) (seq 0 (nrows X)))).

(** The observation vector zero-padded by [P] entries. *)
Definition pad_observation (value : list F) (P : nat) : list F :=
  value ++ repeat (of_int 0) P.

(** [(AᵗA + damping²·LᵗL)⁻¹ · Aᵗ · observation] *)
Definition damped_solution (A L : matrix F) (observation : list F) (dmp : F)
  : res (list F) :=
  X <- ew2 fadd (gram A) (smul (fpow dmp (of_int 2)) (gram L)) ;;
  Xi <- linalg_inv X ;;
  G <- dot Xi (transpose A) ;;
  dotv G observation.

(** The multi-index [2·e_i] in dimension [D]. *)
Definition second_derivative_index (D i : nat) : list nat :=
  map (fun j => if j =? i then 2 else 0) (seq 0 D).

(** The trace of a square matrix and the squared Euclidean norm. *)
Definition trace (X : matrix F) : F :=
  fsum (map (fun i => mget X i i) (seq 0 (nrows X))).

Definition norm2 (v : list F) : F := fsum (map (fun a => fmul a a) v).

(** [A_ginv(d) = (AᵗA + 10^(2d)·LᵗL)⁻¹ Aᵗ] *)
Definition A_ginv (A L : matrix F) (d : F) : res (matrix F) :=
  X <- ew2 fadd (gram A)
         (smul (fpow (of_int 10) (fmul (of_int 2) d)) (gram L)) ;;
  Xi <- linalg_inv X ;;
  dot Xi (transpose A).

(** [GCV(d) = M·misfit(d) / (M − trace(A·A_ginv(d)))²] with
    [coeff(d) = A_ginv(d)·observation] and
    [misfit(d) = ‖A·coeff(d) − observation‖²]. *)
Definition GCV_score (A L : matrix F) (observation : list F) (d : F) : res F :=
  let M := of_int (Z.of_nat (nrows A)) in
  G <- A_ginv A L d ;;
  coeff <- dotv G observation ;;
  predicted <- dotv A coeff ;;
  residual <- vew2 fsub predicted observation ;;
  AG <- dot A G ;;
  Ok (fdiv (fmul M (norm2 residual)) (fpow (fsub M (trace AG)) (of_int 2))).

(** When the score as computed is the score above to the last bit.  The
    source squares [10^d] where the formula has [10^(2d)], and it adds the
    entries of [A ∘ A_ginvᵗ] in one run ([np.sum]) where the trace adds the
    diagonal of [A·A_ginv], each entry a sum of its own.  [score_exact_at]
    says that, for the data at hand, both pairs agree.  It holds for all
    data in exact arithmetic; in binary64 it holds or fails with the data. *)
Definition sums_by_rows (X : matrix F) : Prop :=
  msum X = fsum (map (fun i => fsum (row X i)) (seq 0 (nrows X))).

Definition score_exact_at (A L : matrix F) (d : F) : Prop :=
  fpow (of_int 10) (fmul (of_int 2) d) = fpow (fpow (of_int 10) d) (of_int 2) /\
  forall G X : matrix F,
    A_ginv A L d = Ok G -> ew2 fmul A (transpose G) = Ok X -> sums_by_rows X.

(** The row of the interpolation matrix at a query point [p]: the basis
    values against the training points, then the monomial values; and the
    ordinary interpolated value there, that row times the stored
    coefficients. *)
Definition interpolation_row (itp : interpolant F) (diff : option (list nat))
  (p : list F) : list F :=
  map (fun j => phi diff p (row (itp_x itp) j) (nth j (itp_eps itp) (of_int 0)))
      (seq 0 (nrows (itp_x itp)))
  ++ map (fun pw => monomial diff p pw)
         (monomial_powers (itp_order itp) (length p)).

Definition interpolate_point (itp : interpolant F) (diff : option (list nat))
  (p : list F) : F :=
  let r := interpolation_row itp diff p in
  fsum (map (fun k => fmul (nth k r (of_int 0)) (nth k (itp_coeff itp) (of_int 0)))
            (seq 0 (length r))).

(** Evaluation of all query points by one interpolation matrix, without
    chunks, followed by the hull gate. *)
Definition interpolated_values (itp : interpolant F) (xitp : matrix F)
  (diff : option (list nat)) : res (list F) :=
  A <- interpolation_matrix xitp (itp_x itp) diff (itp_eps itp) (itp_order itp) ;;
  dotv A (itp_coeff itp).

Definition evaluate_at_once (itp : interpolant F) (xitp : matrix F)
  (diff : option (list nat)) : res (list F) :=
  out <- interpolated_values itp xitp diff ;;
  if negb (itp_extrapolate itp) then
    mask <- in_hull xitp (itp_x itp) ;;
    fill_outside out mask (itp_fill itp)
  else Ok out.

(** A fitted interpolant as [__init__] leaves it: one shape parameter per
    training point and one coefficient per column of the system. *)
Definition fitted (itp : interpolant F) : Prop :=
  length (itp_eps itp) = nrows (itp_x itp) /\
  length (itp_coeff itp) =
    nrows (itp_x itp)
    + length (monomial_powers (itp_order itp) (ncols (itp_x itp))).

(** [scipy.linalg.inv] returns a matrix of the shape of its argument. *)
Definition inv_keeps_shape : Prop :=
  forall X Y : matrix F, linalg_inv X = Ok Y ->
    nrows Y = nrows X /\ ncols Y = ncols X.

End SpecDefinitions.

(** ** Example data *)

(** One training point at the origin, and two training points, on the line;
    three training points in the plane. *)
Definition x_one : matrix float := of_rows [[0%float]].
Definition x_two : matrix float := of_rows [[0%float]; [1%float]].
Definition x_tri : matrix float :=
  of_rows [[0%float; 0%float]; [4%float; 0%float]; [0%float; 4%float]].

(** The system of [x_one] with order 0: [A = [[0,1],[1,0]]] and
    [L = [[0,0]]], over the floats and over the integers. *)
Definition A_one : matrix float := of_rows [[0%float; 1%float]; [1%float; 0%float]].
Definition L_one : matrix float := of_rows [[0%float; 0%float]].
Definition A_oneZ : matrix Z := of_rows [[0%Z; 1%Z]; [1%Z; 0%Z]].
Definition L_oneZ : matrix Z := of_rows [[0%Z; 0%Z]].

(** A system with one observation and one polynomial row whose damped normal
    matrix is diagonal and whose score is an ordinary number:
    [AᵗA + LᵗL = diag(8,16)]. *)
Definition A_gcv : matrix float :=
  of_rows [[2%float; 0%float]; [0%float; 4%float]].
Definition L_gcv : matrix float := of_rows [[2%float; 0%float]].

(** A system of the same kind whose entries do not add up exactly in
    binary64: [AᵗA + LᵗL = diag(6,5)]. *)
Definition A_round : matrix float :=
  of_rows [[1%float; 2%float]; [2%float; (-1)%float]].
Definition L_round : matrix float := of_rows [[1%float; 0%float]].

(** Fitted interpolants on [x_two] and [x_tri] that refuse to extrapolate,
    and query points inside, on the boundary of, and outside the hull. *)
Definition itp_two : interpolant float :=
  Interpolant x_two [1%float; 2%float; 3%float] 0 [1%float; 1%float] false nan.
Definition itp_tri : interpolant float :=
  Interpolant x_tri [1%float; 2%float; 3%float; 4%float] 0
    [1%float; 1%float; 1%float] false nan.
Definition q_line : matrix float :=
  of_rows [[0.5%float]; [2%float]; [1%float]; [(-1)%float]; [0%float]].
Definition q_plane : matrix float :=
  of_rows [[1%float; 1%float]; [5%float; 5%float]; [0%float; 4%float]].

(** ** Ordered data *)

(** What the hull test needs of the values it compares: on the values of
    [l], [<=] is a total preorder and [np.minimum], [np.maximum] pick one of
    their arguments by it.  For binary64 this says that no value of [l] is a
    nan. *)
Definition ordered_on {F : Type} `{Scalar F} (l : list F) : Prop :=
  (forall a b c : F, In a l -> In b l -> In c l ->
     fle a b = true -> fle b c = true -> fle a c = true) /\
  (forall a b : F, In a l -> In b l ->
     (fle a b = false -> fle b a = true) /\
     fminimum a b = (if fle a b then a else b) /\
     fmaximum a b = (if fle a b then b else a)).

(** ** [rbf/normalize.py]: Monte Carlo integration and normalization *)

(** The failures of this module: those of the libraries as above, and
    Python's own [AssertionError], [ZeroDivisionError] and
    [UnboundLocalError]. *)
Inductive mc_exn : Type :=
| Lib (e : exn)
| AssertionError
| ZeroDivisionError
| UnboundLocalError.

Inductive mc_res (A : Type) : Type :=
| Return (a : A)
| Throw (e : mc_exn)
| Unfinished.
Arguments Return {A} a.
Arguments Throw {A} e.
Arguments Unfinished {A}.

Definition mc_bind {A B : Type} (m : mc_res A) (k : A -> mc_res B) : mc_res B :=
  match m with
  | Return a => k a
  | Throw e => Throw e
  | Unfinished => Unfinished
  end.

Notation "x <~ m ;; k" := (mc_bind m (fun x => k))
  (at level 100, m at next level, right associativity).

Definition lift {A : Type} (m : res A) : mc_res A :=
  match m with
  | Ok a => Return a
  | Raise e => Throw (Lib e)
  | NoFuel => Unfinished
  end.

(** A number as [mcint] returns it: a Python [float] when the loop never
    ran (an int divided by an int), a numpy [float64] otherwise.  The two
    differ when divided by the int [0]. *)
Inductive pynum (F : Type) : Type :=
| PyFloat (a : F)
| NpFloat (a : F).
Arguments PyFloat {F} a.
Arguments NpFloat {F} a.

Definition num_value {F : Type} (n : pynum F) : F :=
  match n with PyFloat a => a | NpFloat a => a end.

(** Modelled from the spec: the sampling and geometry utilities are
    services behind narrow interfaces (section 1) and are not among the
    sources.  What the module imports: the generator object of
    [rbf.halton.Halton] (its state, [Halton(dim)] and [H(n)], which returns
    the next [n] points and advances), [rbf.geometry.is_valid] and
    [rbf.geometry.boundary_contains]; numpy's [np.min(vert,0)] and
    [np.max(vert,0)]; and, of the scalars, [-np.inf], [>] and [==].  The
    decorator [modest.funtime] only times the call.  Nothing is assumed about
    any of them. *)
Class Sampling (F : Type) `{Scalar F} := {
  halton_state : Type;
  halton_new : nat -> halton_state;
  halton_call : halton_state -> Z -> res (matrix F * halton_state);
  is_valid : list (list nat) -> bool;
  boundary_contains : matrix F -> matrix F -> list (list nat) -> res (list bool);
  amin0 : matrix F -> res (list F);
  amax0 : matrix F -> res (list F);
  neg_inf : F;
  fgt : F -> F -> bool;
  feq : F -> F -> bool
}.

Section Normalize.
Context {F : Type} `{Sampling F}.

(** A 1-D array as it broadcasts against a 2-D one: a single row. *)
Definition row_matrix (v : list F) : matrix F :=
  tabulate 1 (length v) (fun _ j => nth j v (of_int 0)).

(** [val[mask]] for a boolean mask. *)
Definition select (val : list F) (mask : list bool) : res (list F) :=
  if length mask =? length val
  then Ok (map fst (List.filter snd (combine val mask)))
  else Raise IndexError.

(** [np.prod] of a 1-D array. *)
Definition fprod (l : list F) : F := fold_left fmul l (of_int 1).

(** [sample_size = 1000000] *)
Definition sample_size0 : Z := 1000000.

(** One batch (lines 36-38 and 72-74): [pnts = H(sample_size)*(ub-lb) + lb],
    [val = f(pnts)], [val = val[boundary_contains(pnts,vert,smp)]]. *)
Definition sample_batch (f : matrix F -> res (list F)) (vert : matrix F)
  (smp : list (list nat)) (lb ub : list F) (G : halton_state) (size : Z)
  : res (list F * halton_state) :=
  pG <- halton_call G size ;;
  w <- vew2 fsub ub lb ;;
  scaled <- ew2 fmul (fst pG) (row_matrix w) ;;
  pnts <- ew2 fadd scaled (row_matrix lb) ;;
  val <- f pnts ;;
  mask <- boundary_contains pnts vert smp ;;
  val <- select val mask ;;
  Ok (val, snd pG).

(** The [while count < N] loop of [mcint] (lines 32-41). *)
Fixpoint mcint_loop (fuel : nat) (f : matrix F -> res (list F)) (vert : matrix F)
  (smp : list (list nat)) (lb ub : list F) (N count size : Z)
  (G : halton_state) (soln : F) : mc_res F :=
  if (count <? N)%Z then
    match fuel with
    | 0 => Unfinished
    | S fuel' =>
        let size := if (count + size >? N)%Z then (N - count)%Z else size in
        vG <~ lift (sample_batch f vert smp lb ub G size) ;;
        w <~ lift (vew2 fsub ub lb) ;;
        let soln := fadd soln (fmul (fsum (fst vG)) (fprod w)) in
        mcint_loop fuel' f vert smp lb ub N (count + size)%Z size (snd vG) soln
    end
  else Return soln.

(** [mcint(f,vert,smp,N)] (lines 12-44).  [soln] starts as the int [0]; the
    final [soln /= N] divides an int by an int when no batch was drawn. *)
Definition mcint (fuel : nat) (f : matrix F -> res (list F)) (vert : matrix F)
  (smp : list (list nat)) (N : option Z) : mc_res (pynum F) :=
  if negb (is_valid smp) then Throw AssertionError else
  lb <~ lift (amin0 vert) ;;
  ub <~ lift (amax0 vert) ;;
  let dim := length lb in
  let G := halton_new dim in
  let N := match N with None => (200 ^ Z.of_nat dim)%Z | Some n => n end in
  soln <~ mcint_loop fuel f vert smp lb ub N 0%Z sample_size0 G (of_int 0) ;;
  if (0 <? N)%Z then Return (NpFloat (fdiv soln (of_int N)))
  else if (N =? 0)%Z then Throw ZeroDivisionError
  else Return (PyFloat (fdiv (of_int 0) (of_int N))).

(** The loop of [mcmax] (lines 68-80). *)
Fixpoint mcmax_loop (fuel : nat) (f : matrix F -> res (list F)) (vert : matrix F)
  (smp : list (list nat)) (lb ub : list F) (N count size : Z)
  (G : halton_state) (soln : F) : mc_res F :=
  if (count <? N)%Z then
    match fuel with
    | 0 => Unfinished
    | S fuel' =>
        let size := if (count + size >? N)%Z then (N - count)%Z else size in
        vG <~ lift (sample_batch f vert smp lb ub G size) ;;
        maxval <~ lift (reduce1 fmaximum (fst vG)) ;;
        let soln := if fgt maxval soln then maxval else soln in
        mcmax_loop fuel' f vert smp lb ub N (count + size)%Z size (snd vG) soln
    end
  else Return soln.

(** [mcmax(f,vert,smp,N)] (lines 47-82) *)
Definition mcmax (fuel : nat) (f : matrix F -> res (list F)) (vert : matrix F)
  (smp : list (list nat)) (N : option Z) : mc_res F :=
  if negb (is_valid smp) then Throw AssertionError else
  lb <~ lift (amin0 vert) ;;
  ub <~ lift (amax0 vert) ;;
  let dim := length lb in
  let G := halton_new dim in
  let N := match N with None => (200 ^ Z.of_nat dim)%Z | Some n => n end in
  mcmax_loop fuel f vert smp lb ub N 0%Z sample_size0 G neg_inf.

(** [x/nodes] for the result [x] of [mcint] and an int [nodes]. *)
Definition div_nodes (x : pynum F) (nodes : Z) : mc_res F :=
  match x with
  | PyFloat a =>
      if (nodes =? 0)%Z then Throw ZeroDivisionError
      else Return (fdiv a (of_int nodes))
  | NpFloat a => Return (fdiv a (of_int nodes))
  end.

(** [normalize(fin,vert,smp,kind,N,nodes)] (lines 85-115).  The three [if]
    statements bind [denom] or leave it unbound; the returned closure is
    [fout]. *)
Definition normalize (fuel : nat) (fin : matrix F -> res (list F))
  (vert : matrix F) (smp : list (list nat)) (kind : string) (N : option Z)
  (nodes : option Z) : mc_res (matrix F -> res (list F)) :=
  denom <~ (if String.eqb kind "integral"
            then d <~ mcint fuel fin vert smp N ;; Return (Some (num_value d))
            else Return None) ;;
  denom <~ (if String.eqb kind "max"
            then d <~ mcmax fuel fin vert smp N ;; Return (Some d)
            else Return denom) ;;
  denom <~ (if String.eqb kind "density"
            then match nodes with
                 | None => Throw (Lib ValueError)
                 | Some n =>
                     d <~ mcint fuel fin vert smp N ;;
                     q <~ div_nodes d n ;;
                     Return (Some q)
                 end
            else Return denom) ;;
  match denom with
  | None => Throw UnboundLocalError
  | Some d =>
      if feq d (of_int 0) then Throw (Lib ValueError)
      else Return (fun p => v <- fin p ;; Ok (map (fun a => fdiv a d) v))
  end.

(** [normalize_decorator] (lines 118-122): [normalize] with the function to
    normalize as the last argument. *)
Definition normalize_decorator (fuel : nat) (vert : matrix F)
  (smp : list (list nat)) (kind : string) (N : option Z) (nodes : option Z)
  (fin : matrix F -> res (list F)) : mc_res (matrix F -> res (list F)) :=
  normalize fuel fin vert smp kind N nodes.

(** The batch sizes of a run over [N] samples, as the loop takes them: full
    batches of [sample_size], then the remainder. *)
Definition batch_sizes (N : Z) : list Z :=
  repeat sample_size0 (Z.to_nat (N / sample_size0))
  ++ (if (N mod sample_size0 =? 0)%Z then [] else [(N mod sample_size0)%Z]).

(** The sum that [mcint] accumulates over a list of batch sizes, drawing
    each batch from the generator in turn. *)
Fixpoint integrate_batches (f : matrix F -> res (list F)) (vert : matrix F)
  (smp : list (list nat)) (lb ub : list F) (sizes : list Z)
  (G : halton_state) (soln : F) : mc_res F :=
  match sizes with
  | [] => Return soln
  | size :: rest =>
      vG <~ lift (sample_batch f vert smp lb ub G size) ;;
      w <~ lift (vew2 fsub ub lb) ;;
      integrate_batches f vert smp lb ub rest (snd vG)
        (fadd soln (fmul (fsum (fst vG)) (fprod w)))
  end.

(** The function that [normalize] returns for a denominator [d]: none for
    a zero denominator, else [fin(p)/d]. *)
Definition divided_by (fin : matrix F -> res (list F)) (d : F)
  : mc_res (matrix F -> res (list F)) :=
  if feq d (of_int 0) then Throw (Lib ValueError)
  else Return (fun p => v <- fin p ;; Ok (map (fun a => fdiv a d) v)).

End Normalize.

(** Example collaborators of [rbf/normalize.py] on the floats: the van der
    Corput sequence in base 2 in every coordinate (the Halton sequence in
    dimension 1), a domain on the line that is the interval between the
    vertices that the simplices name, simplices that are valid when there
    are any, and column-wise reductions. *)
Fixpoint corput (p : positive) : float :=
  match p with
  | xH => 0.5%float
  | xO q => PrimFloat.div (corput q) 2%float
  | xI q => PrimFloat.add 0.5%float (PrimFloat.div (corput q) 2%float)
  end.

Definition corput_call (dim : nat) (g : Z) (n : Z)
  : res (matrix float * Z) :=
  Ok (tabulate (Z.to_nat n) dim (fun i _ =>
        match (g + Z.of_nat i + 1)%Z with
        | Zpos p => corput p
        | _ => 0%float
        end),
      (g + n)%Z).

Definition column_reduce (op : float -> float -> float) (A : matrix float)
  : res (list float) :=
  if nrows A =? 0 then Raise ValueError
  else Ok (map (fun j =>
             fold_left op (map (fun i => mget A i j) (seq 1 (nrows A - 1)))
               (mget A 0 j))
           (seq 0 (ncols A))).

Definition interval_contains (pnts vert : matrix float) (smp : list (list nat))
  : res (list bool) :=
  let ends := map (fun k => mget vert k 0) (concat smp) in
  lo <- reduce1 float_minimum ends ;;
  hi <- reduce1 float_maximum ends ;;
  Ok (map (fun i =>
        PrimFloat.leb lo (mget pnts i 0) && PrimFloat.leb (mget pnts i 0) hi)
      (seq 0 (nrows pnts))).

#[export] Instance example_sampling : Sampling float := {
  halton_state := nat * Z;
  halton_new := fun dim => (dim, 0%Z);
  halton_call := fun g n =>
    pg <- corput_call (fst g) (snd g) n ;; Ok (fst pg, (fst g, snd pg));
  is_valid := fun smp => negb (length smp =? 0);
  boundary_contains := interval_contains;
  amin0 := column_reduce float_minimum;
  amax0 := column_reduce float_maximum;
  neg_inf := neg_infinity;
  fgt := fun a b => PrimFloat.ltb b a;
  feq := PrimFloat.eqb
}.

(** The interval [[0,2]] with its two end points as boundary, the
    degenerate boundary that names the vertex [0] twice (the domain is the
    single point [0]), and the functions [f(p) = p_0] and [f(p) = 0]. *)
Definition segment : matrix float := of_rows [[0%float]; [2%float]].
Definition segment_smp : list (list nat) := [[0]; [1]].
Definition point_smp : list (list nat) := [[0]; [0]].
Definition coordinate (p : matrix float) : res (list float) :=
  Ok (map (fun i => mget p i 0) (seq 0 (nrows p))).
Definition zero_function (p : matrix float) : res (list float) :=
  Ok (map (fun _ => 0%float) (seq 0 (nrows p))).

(** Three training points on the line, in no order, and a fitted
    interpolant over them that refuses to extrapolate. *)
Definition x_line : matrix float :=
  of_rows [[1%float]; [(-2)%float]; [0.5%float]].
Definition itp_line : interpolant float :=
  Interpolant x_line [1%float; 2%float; 3%float; 4%float] 0
    [1%float; 1%float; 1%float] false nan.

(** * Proofs *)

(** ** Lists and arrays *)

Section ArrayFacts.
Context {F : Type} `{Scalar F}.

Lemma nth_map_seq_from {A : Type} (f : nat -> A) (d : A) (n i s : nat) :
  i < n -> nth i (map f (seq s n)) d = f (s + i).
Proof.
  revert i s. induction n as [|n IH]; intros i s Hi; [lia|].
  destruct i as [|i]; simpl.
  - f_equal. lia.
  - rewrite IH by lia. f_equal. lia.
Qed.

Lemma nth_map_seq {A : Type} (f : nat -> A) (d : A) (n i : nat) :
  i < n -> nth i (map f (seq 0 n)) d = f i.
Proof. intros Hi. now rewrite nth_map_seq_from. Qed.

Lemma mget_tabulate (r c : nat) (f : nat -> nat -> F) (i j : nat) :
  i < r -> j < c -> mget (tabulate r c f) i j = f i j.
Proof.
  intros Hi Hj. unfold mget, tabulate; simpl.
  rewrite (nth_map_seq (fun i => map (fun j => f i j) (seq 0 c))) by assumption.
  now rewrite nth_map_seq.
Qed.

Lemma bget_mget (A : matrix F) (i j : nat) :
  i < nrows A -> j < ncols A -> bget A i j = mget A i j.
Proof.
  intros Hi Hj. unfold bget.
  destruct (Nat.eqb_spec (nrows A) 1), (Nat.eqb_spec (ncols A) 1);
    repeat f_equal; lia.
Qed.

Lemma bdim_same (a : nat) : bdim a a = Some a.
Proof. unfold bdim. now rewrite Nat.eqb_refl. Qed.

Lemma broadcast_to_same (B : matrix F) :
  broadcast_to (nrows B) (ncols B) B
  = Ok (tabulate (nrows B) (ncols B) (fun i j => bget B i j)).
Proof. unfold broadcast_to. now rewrite !Nat.eqb_refl. Qed.

Lemma ew2_same_shape (op : F -> F -> F) (A B : matrix F) :
  nrows B = nrows A -> ncols B = ncols A ->
  ew2 op A B
  = Ok (tabulate (nrows A) (ncols A) (fun i j => op (bget A i j) (bget B i j))).
Proof. intros Hr Hc. unfold ew2. now rewrite Hr, Hc, !bdim_same. Qed.

Lemma map_seq_ext {A : Type} (f g : nat -> A) (n : nat) :
  (forall i, i < n -> f i = g i) -> map f (seq 0 n) = map g (seq 0 n).
Proof.
  intros Hfg. apply map_ext_in. intros i Hi. apply in_seq in Hi. apply Hfg. lia.
Qed.

Lemma tabulate_ext (r c : nat) (f g : nat -> nat -> F) :
  (forall i j, i < r -> j < c -> f i j = g i j) -> tabulate r c f = tabulate r c g.
Proof.
  intros Hfg. unfold tabulate. f_equal.
  apply map_seq_ext. intros i Hi. apply map_seq_ext. auto.
Qed.

Lemma mget_transpose (A : matrix F) (i j : nat) :
  i < ncols A -> j < nrows A -> mget (transpose A) i j = mget A j i.
Proof. intros Hi Hj. unfold transpose. now rewrite mget_tabulate. Qed.

Lemma dot_transpose_gram (X : matrix F) : dot (transpose X) X = Ok (gram X).
Proof.
  unfold dot, gram. simpl. rewrite Nat.eqb_refl. f_equal.
  apply tabulate_ext. intros i j Hi Hj. f_equal.
  apply map_seq_ext. intros k Hk. now rewrite mget_transpose.
Qed.

Lemma map_nth_seq {A B : Type} (l : list A) (d : A) (f : A -> B) :
  map (fun k => f (nth k l d)) (seq 0 (length l)) = map f l.
Proof.
  induction l as [|a l IH]; [reflexivity|].
  simpl. f_equal. rewrite <- seq_shift, map_map. exact IH.
Qed.

Lemma vdot_self (r : list F) : vdot r r = Ok (norm2 r).
Proof.
  unfold vdot, norm2. rewrite Nat.eqb_refl. f_equal. f_equal.
  exact (map_nth_seq r (of_int 0) (fun a => fmul a a)).
Qed.

(** Sums under the laws of exact arithmetic. *)
Lemma fold_fadd_acc `{!ExactArith F} (l : list F) (a : F) :
  fold_left fadd l a = fadd a (fsum l).
Proof.
  unfold fsum. revert a. induction l as [|x l IH]; intros a; simpl.
  - now rewrite fadd_0_r.
  - rewrite IH, (IH (fadd (of_int 0) x)), fadd_0_l. symmetry. apply fadd_assoc.
Qed.

Lemma fsum_app `{!ExactArith F} (l1 l2 : list F) :
  fsum (l1 ++ l2) = fadd (fsum l1) (fsum l2).
Proof. unfold fsum at 1. rewrite fold_left_app. apply fold_fadd_acc. Qed.

Lemma fsum_concat `{!ExactArith F} (ls : list (list F)) :
  fsum (concat ls) = fsum (map fsum ls).
Proof.
  induction ls as [|l ls IH]; [reflexivity|].
  simpl. rewrite fsum_app, IH.
  unfold fsum at 4. simpl. now rewrite fold_fadd_acc, fadd_0_l.
Qed.

(** With as many coefficients as columns, [einsum] is [dot]. *)
Lemma einsum_dotv (A : matrix F) (v : list F) :
  ncols A = length v -> einsum_ij_j A v = dotv A v.
Proof.
  intros Hc. unfold einsum_ij_j, dotv.
  rewrite Hc, bdim_same, Nat.eqb_refl. f_equal.
  apply map_seq_ext. intros i Hi. f_equal.
  apply map_seq_ext. intros k Hk. unfold vget.
  destruct (Nat.eqb_spec (length v) 1) as [H1|]; [|reflexivity].
  replace k with 0 by lia. reflexivity.
Qed.

End ArrayFacts.

(** ** The damped least-squares solver *)

Section SolverFacts.
Context {F : Type} `{Collaborators F}.

(** [find_coeff] once its size test has passed and the condition number has
    been computed: the damping is chosen, then the damped system is solved. *)
Lemma find_coeff_steps (A L : matrix F) (value : list F) (dmp : damping F)
  (P : nat) (k : F) :
  nrows A = length value + P ->
  linalg_cond (gram A) = Ok k ->
  find_coeff A L value dmp =
    (d <- match dmp with
          | GCV =>
              d <- optimize_fmin
                     (predictive_error A (pad_observation value P)
                        (gram A) (gram L) (nrows A)) (of_int 0) ;;
              Ok (fpow (of_int 10) d)
          | Fixed d => Ok d
          end ;;
     damped_solution A L (pad_observation value P) d).
Proof.
  intros HA Hc. unfold find_coeff.
  destruct (Nat.ltb_spec (nrows A) (length value)) as [Hlt|_]; [lia|].
  replace (nrows A - length value) with P by lia.
  replace (P + length value) with (nrows A) by lia.
  rewrite !dot_transpose_gram. cbn [bind]. rewrite Hc. cbn [bind].
  destruct dmp; reflexivity.
Qed.

(** The trace of [A·G] adds, row by row, the entries that [product_trace]
    adds in one run. *)
Lemma trace_dot_by_rows (A G X : matrix F) :
  nrows G = ncols A -> ncols G = nrows A ->
  ew2 fmul A (transpose G) = Ok X ->
  exists AG : matrix F,
    dot A G = Ok AG /\
    trace AG = fsum (map (fun i => fsum (row X i)) (seq 0 (nrows X))).
Proof.
  intros Hr Hc HX.
  rewrite ew2_same_shape in HX by (simpl; congruence).
  injection HX as <-.
  unfold dot. rewrite Hr, Nat.eqb_refl. eexists. split; [reflexivity|].
  unfold trace. cbn [nrows tabulate]. f_equal.
  apply map_seq_ext. intros i Hi.
  rewrite mget_tabulate by (assumption || lia).
  unfold row. cbn [ncols tabulate]. f_equal.
  apply map_seq_ext. intros j Hj.
  rewrite mget_tabulate by assumption.
  rewrite !bget_mget by (simpl; lia).
  rewrite mget_transpose by lia. reflexivity.
Qed.

(** In exact arithmetic every array adds up the same in one run and row by
    row, and the two powers agree: the condition holds for all data. *)
Lemma exact_sums_by_rows `{!ExactArith F} (X : matrix F) : sums_by_rows X.
Proof.
  unfold sums_by_rows, msum. now rewrite fsum_concat, map_map.
Qed.

Lemma exact_score_exact_at `{!ExactArith F} (A L : matrix F) (d : F) :
  score_exact_at A L d.
Proof.
  split; [apply fpow_10_double|]. intros G X _ _. apply exact_sums_by_rows.
Qed.

Lemma gcv_objective_eq (A L : matrix F) (obs : list F) (d : F) :
  inv_keeps_shape -> score_exact_at A L d ->
  predictive_error A obs (gram A) (gram L) (nrows A) d = GCV_score A L obs d.
Proof.
  intros Hinv [Hpow Hsum]. unfold predictive_error, GCV_score.
  assert (HG : forall G, A_ginv A L d = Ok G ->
            (X <- ew2 fadd (gram A)
                    (smul (fpow (fpow (of_int 10) d) (of_int 2)) (gram L)) ;;
             Xi <- linalg_inv X ;; dot Xi (transpose A)) = Ok G).
  { intros G. unfold A_ginv. now rewrite Hpow. }
  unfold A_ginv in *. rewrite Hpow in *.
  destruct (ew2 fadd (gram A) _) as [X| |] eqn:EX; cbn [bind] in *;
    try reflexivity.
  destruct (linalg_inv X) as [Xi| |] eqn:EI; cbn [bind] in *; try reflexivity.
  destruct (dot Xi (transpose A)) as [G| |] eqn:EG; cbn [bind]; try reflexivity.
  destruct (dotv G obs) as [coeff| |]; cbn [bind]; try reflexivity.
  destruct (dotv A coeff) as [predicted| |]; cbn [bind]; try reflexivity.
  destruct (vew2 fsub predicted obs) as [residual| |]; cbn [bind]; try reflexivity.
  rewrite vdot_self. cbn [bind].
  assert (HX : nrows X = ncols X).
  { unfold ew2 in EX. cbn [nrows ncols gram smul tabulate] in EX.
    destruct (bdim (ncols A) (ncols L)); now inversion EX. }
  destruct (Hinv X Xi EI) as [Hr Hc].
  assert (HGs : nrows G = ncols A /\ ncols G = nrows A).
  { unfold dot in EG. cbn [nrows ncols transpose tabulate] in EG.
    destruct (Nat.eqb_spec (ncols Xi) (ncols A)) as [HXi|]; [|discriminate].
    injection EG as <-. cbn [nrows ncols tabulate]. split; [lia | reflexivity]. }
  destruct HGs as [HGr HGc].
  unfold product_trace.
  destruct (ew2 fmul A (transpose G)) as [Y| |] eqn:EY;
    try (rewrite ew2_same_shape in EY by (simpl; congruence); discriminate).
  cbn [bind].
  destruct (trace_dot_by_rows A G Y HGr HGc EY) as (AG & HAG & Htr).
  rewrite HAG. cbn [bind]. rewrite Htr.
  now rewrite <- (Hsum G Y eq_refl EY).
Qed.

(** C1: for a matrix [A] with [M = N + P] rows, a regularization matrix [L],
    [N] observations and a fixed damping, [find_coeff] pads the observations
    with [P] zeros to length [M] and returns
    [(AᵗA + damping²·LᵗL)⁻¹ · Aᵗ · paddedObservation]. *)
Theorem find_coeff_fixed_damping (A L : matrix F) (value : list F) (d : F)
  (P : nat) (k : F) :
  nrows A = length value + P ->
  linalg_cond (gram A) = Ok k ->
  length (pad_observation value P) = nrows A /\
  find_coeff A L value (Fixed d)
  = damped_solution A L (pad_observation value P) d.
Proof.
  intros HA Hc. split.
  - unfold pad_observation. rewrite length_app, repeat_length. lia.
  - now rewrite (find_coeff_steps A L value (Fixed d) P k).
Qed.

(** C4: in GCV mode the objective handed to the minimizer is
    [M·misfit(d) / (M − trace(A·A_ginv(d)))²] with
    [A_ginv(d) = (AᵗA + 10^(2d)·LᵗL)⁻¹Aᵗ] and
    [misfit(d) = ‖A·coeff(d) − observation‖²], at every [d] where the two
    powers and the two orders of summation agree on the data
    ([score_exact_at]; every [d] in exact arithmetic); the search starts at
    [d = 0]; and the result is the solution
    [(AᵗA + damping²·LᵗL)⁻¹·Aᵗ·observation] of the fixed-damping system for
    [damping = 10^d*]. *)
Theorem gcv_objective_and_damping (A L : matrix F) (value : list F) (P : nat)
  (k : F) :
  inv_keeps_shape ->
  nrows A = length value + P ->
  linalg_cond (gram A) = Ok k ->
  let observation := pad_observation value P in
  let objective :=
    predictive_error A observation (gram A) (gram L) (nrows A) in
  (forall d, score_exact_at A L d ->
     objective d = GCV_score A L observation d) /\
  find_coeff A L value GCV
  = (d <- optimize_fmin objective (of_int 0) ;;
     damped_solution A L observation (fpow (of_int 10) d)).
Proof.
  intros Hinv HA Hc observation objective. split.
  - intros d Hd. now apply gcv_objective_eq.
  - rewrite (find_coeff_steps A L value GCV P k) by assumption.
    fold observation objective.
    now destruct (optimize_fmin objective (of_int 0)).
Qed.

(** The objective raises nothing of its own and tests nothing: once the
    damped normal matrix has an inverse, every step succeeds and the result
    is the quotient of the numbers computed, whatever the denominator. *)
Lemma predictive_error_value (A L : matrix F) (obs : list F) (d : F) (Xi : matrix F) :
  inv_keeps_shape ->
  ncols A = nrows A -> ncols L = nrows A -> length obs = nrows A ->
  (X <- ew2 fadd (gram A) (smul (fpow (fpow (of_int 10) d) (of_int 2)) (gram L)) ;;
   linalg_inv X) = Ok Xi ->
  exists (G : matrix F) (coeff predicted residual : list F) (Y : matrix F),
    dot Xi (transpose A) = Ok G /\
    dotv G obs = Ok coeff /\
    dotv A coeff = Ok predicted /\
    vew2 fsub predicted obs = Ok residual /\
    ew2 fmul A (transpose G) = Ok Y /\
    predictive_error A obs (gram A) (gram L) (nrows A) d
    = Ok (fdiv (fmul (of_int (Z.of_nat (nrows A))) (norm2 residual))
               (fpow (fsub (of_int (Z.of_nat (nrows A))) (msum Y)) (of_int 2))).
Proof.
  intros Hinv HA HL Hobs HXi. unfold predictive_error.
  rewrite ew2_same_shape in * by (simpl; congruence).
  cbn [bind] in *. rewrite HXi. cbn [bind].
  destruct (Hinv _ _ HXi) as [Hr Hc]. cbn [nrows ncols tabulate gram] in Hr, Hc.
  destruct (dot Xi (transpose A)) as [G| |] eqn:EG;
    try (unfold dot in EG; cbn [nrows ncols transpose tabulate] in EG;
         replace (ncols Xi =? ncols A) with true in EG
           by (symmetry; apply Nat.eqb_eq; lia);
         discriminate).
  assert (HG : nrows G = nrows A /\ ncols G = nrows A).
  { unfold dot in EG. cbn [nrows ncols transpose tabulate] in EG.
    destruct (ncols Xi =? ncols A); [|discriminate].
    injection EG as <-. cbn [nrows ncols tabulate]. split; [lia | reflexivity]. }
  destruct HG as [HGr HGc]. cbn [bind].
  destruct (dotv G obs) as [coeff| |] eqn:Ec;
    try (unfold dotv in Ec; rewrite HGc, Hobs, Nat.eqb_refl in Ec; discriminate).
  assert (Hcl : length coeff = nrows A).
  { unfold dotv in Ec. rewrite HGc, Hobs, Nat.eqb_refl in Ec.
    injection Ec as <-. now rewrite length_map, length_seq. }
  cbn [bind].
  destruct (dotv A coeff) as [predicted| |] eqn:Ep;
    try (unfold dotv in Ep; rewrite HA, Hcl, Nat.eqb_refl in Ep; discriminate).
  assert (Hpl : length predicted = nrows A).
  { unfold dotv in Ep. rewrite HA, Hcl, Nat.eqb_refl in Ep.
    injection Ep as <-. now rewrite length_map, length_seq. }
  cbn [bind].
  destruct (vew2 fsub predicted obs) as [residual| |] eqn:Er;
    try (unfold vew2 in Er; rewrite Hpl, Hobs, bdim_same in Er; discriminate).
  cbn [bind]. rewrite vdot_self. cbn [bind]. unfold product_trace.
  destruct (ew2 fmul A (transpose G)) as [Y| |] eqn:EY;
    try (rewrite ew2_same_shape in EY by (simpl; lia); discriminate).
  cbn [bind]. exists G, coeff, predicted, residual, Y. auto 10.
Qed.

(** C8, as the code has it: GCV mode has no guard on the score.  Once the
    damped normal matrix has an inverse, the objective returns exactly
    [M·misfit/(M − t)²] for the misfit [‖A·coeff − observation‖²] and the
    sum [t] of the entries of [A ∘ A_ginvᵗ] that it computed, whatever the
    denominator (first part); and whenever the minimizer returns some [d*],
    [find_coeff] returns the fixed-damping solution for [10^d*] (second
    part). *)
Theorem gcv_score_unguarded (A L : matrix F) (value : list F) (P : nat)
  (k dstar : F) :
  inv_keeps_shape ->
  nrows A = length value + P ->
  ncols A = nrows A -> ncols L = nrows A ->
  linalg_cond (gram A) = Ok k ->
  let observation := pad_observation value P in
  let objective :=
    predictive_error A observation (gram A) (gram L) (nrows A) in
  let M := of_int (Z.of_nat (nrows A)) in
  optimize_fmin objective (of_int 0) = Ok dstar ->
  (forall d Xi,
     (X <- ew2 fadd (gram A)
             (smul (fpow (fpow (of_int 10) d) (of_int 2)) (gram L)) ;;
      linalg_inv X) = Ok Xi ->
     exists (G : matrix F) (coeff predicted residual : list F)
            (products : matrix F),
       dot Xi (transpose A) = Ok G /\
       dotv G observation = Ok coeff /\
       dotv A coeff = Ok predicted /\
       vew2 fsub predicted observation = Ok residual /\
       ew2 fmul A (transpose G) = Ok products /\
       objective d
       = Ok (fdiv (fmul M (norm2 residual))
                  (fpow (fsub M (msum products)) (of_int 2)))) /\
  find_coeff A L value GCV
  = damped_solution A L observation (fpow (of_int 10) dstar).
Proof.
  intros Hinv HA Hsq HL Hc observation objective M Hmin. split.
  - intros d Xi HXi.
    apply (predictive_error_value A L observation d Xi); try assumption.
    unfold observation, pad_observation. rewrite length_app, repeat_length. lia.
  - rewrite (find_coeff_steps A L value GCV P k) by assumption.
    fold observation objective. now rewrite Hmin.
Qed.

End SolverFacts.

(** ** The system-matrix builders *)

Ltac decide_bounds :=
  repeat match goal with
         | |- context [?a <=? ?b] => destruct (Nat.leb_spec a b); try lia
         | |- context [?a <? ?b] => destruct (Nat.ltb_spec a b); try lia
         end;
  cbn [andb orb].

Section BuilderFacts.
Context {F : Type} `{Collaborators F}.

Lemma set_block_exact (A B : matrix F) (r0 r1 c0 c1 : nat) :
  r1 <= nrows A -> c1 <= ncols A ->
  nrows B = r1 - r0 -> ncols B = c1 - c0 ->
  set_block A r0 r1 c0 c1 B
  = Ok (tabulate (nrows A) (ncols A) (fun i j =>
          if (r0 <=? i) && (i <? r1) && (c0 <=? j) && (j <? c1)
          then mget B (i - r0) (j - c0)
          else mget A i j)).
Proof.
  intros Hr Hc HBr HBc. unfold set_block.
  replace (Nat.min r1 (nrows A)) with r1 by lia.
  replace (Nat.min c1 (ncols A)) with c1 by lia.
  rewrite <- HBr, <- HBc, broadcast_to_same. cbn [bind]. f_equal.
  apply tabulate_ext. intros i j Hi Hj.
  destruct ((r0 <=? i) && (i <? r1) && (c0 <=? j) && (j <? c1)) eqn:E;
    [|reflexivity].
  apply andb_prop in E as [E E4]. apply andb_prop in E as [E E3].
  apply andb_prop in E as [E1 E2].
  apply Nat.leb_le in E1, E3. apply Nat.ltb_lt in E2, E4.
  rewrite mget_tabulate by lia. apply bget_mget; lia.
Qed.

Lemma basis_ok (xa xb : matrix F) (eps : list F) (diff : option (list nat)) :
  length eps = nrows xb ->
  basis xa xb eps diff
  = Ok (tabulate (nrows xa) (nrows xb) (fun i j =>
          phi diff (row xa i) (row xb j) (nth j eps (of_int 0)))).
Proof. intros He. unfold basis. now rewrite He, Nat.eqb_refl. Qed.

(** C2: [coefficient_matrix] returns an [(N+P)x(N+P)] matrix whose top-left
    block holds the basis values between the training points, whose
    top-right block holds the monomial values at the training points, whose
    bottom-left block is the transpose of that block, and whose bottom-right
    block is zero. *)
Theorem coefficient_matrix_blocks (x : matrix F) (eps : list F) (order : nat) :
  length eps = nrows x ->
  let N := nrows x in
  let powers := monomial_powers order (ncols x) in
  let P := length powers in
  let Ap := mvmonos x powers None in
  exists A B : matrix F,
    basis x x eps None = Ok B /\
    coefficient_matrix x eps order = Ok A /\
    nrows A = N + P /\ ncols A = N + P /\
    (forall i j, i < N -> j < N -> mget A i j = mget B i j) /\
    (forall i j, i < N -> j < P -> mget A i (N + j) = mget Ap i j) /\
    (forall i j, i < P -> j < N -> mget A (N + i) j = mget (transpose Ap) i j) /\
    (forall i j, i < P -> j < P -> mget A (N + i) (N + j) = of_int 0).
Proof.
  intros He N powers P Ap.
  unfold coefficient_matrix. fold N powers P Ap.
  rewrite (basis_ok x x eps None He). fold N. cbn [bind].
  rewrite set_block_exact by (cbn [nrows ncols zeros tabulate]; lia).
  cbn [bind nrows ncols zeros tabulate].
  rewrite set_block_exact
    by (cbn [nrows ncols transpose mvmonos tabulate]; subst Ap; cbn; lia).
  cbn [bind nrows ncols tabulate].
  rewrite set_block_exact
    by (cbn [nrows ncols mvmonos tabulate]; subst Ap; cbn; lia).
  cbn [bind nrows ncols tabulate].
  eexists. eexists. split; [reflexivity|]. split; [reflexivity|].
  cbn [nrows ncols tabulate].
  split; [reflexivity|]. split; [reflexivity|].
  repeat split; intros i j Hi Hj;
    repeat (rewrite (mget_tabulate (N + P) (N + P)) by lia; decide_bounds);
    try (unfold zeros; rewrite mget_tabulate by lia; reflexivity);
    f_equal; lia.
Qed.

(** The entries of the regularization matrix, in closed form: the basis
    values between the training points and the monomial values at them, both
    under the derivative [diff]. *)
Lemma regularization_matrix_entries (x : matrix F) (eps : list F) (order : nat)
  (diff : option (list nat)) :
  length eps = nrows x ->
  let N := nrows x in
  let powers := monomial_powers order (ncols x) in
  exists R : matrix F,
    regularization_matrix x eps order diff = Ok R /\
    nrows R = N /\ ncols R = N + length powers /\
    (forall r c, r < N -> c < N ->
       mget R r c = phi diff (row x r) (row x c) (nth c eps (of_int 0))) /\
    (forall r c, r < N -> c < length powers ->
       mget R r (N + c) = monomial diff (row x r) (nth c powers [])).
Proof.
  intros He N powers. unfold regularization_matrix. fold N powers.
  rewrite (basis_ok x x eps diff He). fold N. cbn [bind].
  rewrite set_block_exact by (cbn [nrows ncols zeros tabulate]; lia).
  cbn [bind nrows ncols zeros tabulate].
  rewrite set_block_exact by (cbn [nrows ncols mvmonos tabulate]; lia).
  cbn [bind nrows ncols tabulate].
  eexists. split; [reflexivity|]. cbn [nrows ncols tabulate].
  split; [reflexivity|]. split; [reflexivity|].
  split; intros r c Hr Hc.
  - repeat (rewrite (mget_tabulate N (N + length powers)) by lia;
            decide_bounds).
    rewrite mget_tabulate by lia. now rewrite !Nat.sub_0_r.
  - repeat (rewrite (mget_tabulate N (N + length powers)) by lia;
            decide_bounds).
    unfold mvmonos. rewrite mget_tabulate by lia.
    rewrite Nat.sub_0_r. do 2 f_equal. lia.
Qed.

Lemma regularization_matrix_ok (x : matrix F) (eps : list F) (order : nat)
  (diff : option (list nat)) :
  length eps = nrows x ->
  exists R : matrix F,
    regularization_matrix x eps order diff = Ok R /\
    nrows R = nrows x /\
    ncols R = nrows x + length (monomial_powers order (ncols x)).
Proof.
  intros He.
  destruct (regularization_matrix_entries x eps order diff He)
    as (R & HR & Hr & Hc & _).
  eauto.
Qed.

(** The terms of the Laplacian: unit coefficient and the multi-index
    [2·e_i], one per dimension. *)
Lemma laplacian_diff_op_terms (D : nat) :
  laplacian_diff_op D
  = map (fun i => (of_int 1, second_derivative_index D i)) (seq 0 D).
Proof.
  unfold laplacian_diff_op, eye. rewrite map_map.
  apply map_seq_ext. intros i Hi. f_equal.
  unfold second_derivative_index. rewrite map_map.
  apply map_seq_ext. intros j Hj.
  rewrite (Nat.eqb_sym j i). now destruct (i =? j).
Qed.

Lemma sum_terms_seq (x : matrix F) (eps : list F) (order D : nat)
  (R : nat -> matrix F) (N M n : nat) :
  forall (s : nat) (acc : matrix F),
  (forall i, s <= i < s + n ->
     regularization_matrix x eps order (Some (second_derivative_index D i))
     = Ok (R i) /\ nrows (R i) = N /\ ncols (R i) = M) ->
  nrows acc = N -> ncols acc = M ->
  exists L : matrix F,
    sum_terms x eps order
      (map (fun i => (of_int 1, second_derivative_index D i)) (seq s n)) acc
    = Ok L /\
    nrows L = N /\ ncols L = M /\
    forall r c, r < N -> c < M ->
      mget L r c
      = fold_left fadd
          (map (fun i => fmul (of_int 1) (mget (R i) r c)) (seq s n))
          (mget acc r c).
Proof.
  induction n as [|n IH]; intros s acc HR Hr Hc.
  - exists acc. simpl. auto.
  - destruct (HR s ltac:(lia)) as (HRs & HRr & HRc).
    cbn [seq map sum_terms]. rewrite HRs. cbn [bind].
    rewrite ew2_same_shape by (cbn [nrows ncols smul tabulate]; congruence).
    cbn [bind].
    edestruct (IH (S s)) as (L & HL & HLr & HLc & HLe);
      [intros i Hi; apply HR; lia | | | ].
    3:{ exists L. split; [exact HL|]. split; [exact HLr|]. split; [exact HLc|].
        intros r c Hrr Hcc. rewrite (HLe r c Hrr Hcc).
        rewrite mget_tabulate by lia.
        rewrite !bget_mget by (cbn [nrows ncols smul tabulate]; lia).
        unfold smul at 1. rewrite mget_tabulate by lia. reflexivity. }
    + cbn [nrows tabulate]. exact Hr.
    + cbn [ncols tabulate]. exact Hc.
Qed.

(** The regularization matrix of the fit, entry by entry, for at least one
    spatial dimension. *)
Lemma laplacian_matrix_entries (x : matrix F) (eps : list F) (order : nat)
  (R : nat -> matrix F) :
  let N := nrows x in
  let M := nrows x + length (monomial_powers order (ncols x)) in
  1 <= ncols x ->
  (forall i, i < ncols x ->
     regularization_matrix x eps order
       (Some (second_derivative_index (ncols x) i)) = Ok (R i) /\
     nrows (R i) = N /\ ncols (R i) = M) ->
  exists L : matrix F,
    laplacian_matrix x eps order = Ok (SumArr L) /\
    nrows L = N /\ ncols L = M /\
    forall r c, r < N -> c < M ->
      mget L r c
      = fsum (map (fun i => fmul (of_int 1) (mget (R i) r c)) (seq 0 (ncols x))).
Proof.
  intros N M HD HR. unfold laplacian_matrix.
  rewrite laplacian_diff_op_terms.
  destruct (ncols x) as [|D'] eqn:ED; [lia|].
  cbn [seq map].
  destruct (HR 0 ltac:(lia)) as (HR0 & HR0r & HR0c).
  rewrite HR0. cbn [bind].
  destruct (sum_terms_seq x eps order (S D') R N M D' 1
              (sadd (of_int 0) (smul (of_int 1) (R 0))))
    as (L & HL & HLr & HLc & HLe).
  - intros i Hi. apply HR. lia.
  - cbn [nrows sadd smul tabulate]. exact HR0r.
  - cbn [ncols sadd smul tabulate]. exact HR0c.
  - rewrite HL. cbn [bind]. exists L.
    split; [reflexivity|]. split; [exact HLr|]. split; [exact HLc|].
    intros r c Hr Hc. rewrite (HLe r c Hr Hc).
    unfold fsum. cbn [fold_left]. f_equal.
    unfold sadd. rewrite mget_tabulate by (cbn [nrows ncols smul tabulate]; lia).
    unfold smul. rewrite mget_tabulate by lia. reflexivity.
Qed.

Lemma laplacian_sum_shape (x : matrix F) (eps : list F) (order : nat) :
  length eps = nrows x -> 1 <= ncols x ->
  exists L : matrix F,
    laplacian_matrix x eps order = Ok (SumArr L) /\
    nrows L = nrows x /\
    ncols L = nrows x + length (monomial_powers order (ncols x)).
Proof.
  intros He HD.
  set (R := fun i =>
    match regularization_matrix x eps order
            (Some (second_derivative_index (ncols x) i)) with
    | Ok m => m
    | _ => zeros 0 0
    end).
  destruct (laplacian_matrix_entries x eps order R HD)
    as (L & HL & HLr & HLc & _).
  - intros i _. subst R. cbn beta.
    destruct (regularization_matrix_ok x eps order
                (Some (second_derivative_index (ncols x) i)) He)
      as (m & Hm & Hr & Hc).
    rewrite Hm. auto.
  - eauto.
Qed.

(** C3: the regularization matrix built during fitting is the sum, over the
    [D] spatial dimensions, of the [N x (N+P)] regularization matrix for the
    multi-index [2·e_i] with unit coefficient, at the training points against
    themselves: summand [i] holds the basis values between the training
    points and the monomial values at them, each differentiated twice in
    coordinate [i]. *)
Theorem laplacian_matrix_is_sum (x : matrix F) (eps : list F) (order : nat) :
  let N := nrows x in
  let D := ncols x in
  let powers := monomial_powers order D in
  let P := length powers in
  length eps = N -> 1 <= D ->
  exists (R : nat -> matrix F) (L : matrix F),
    (forall i, i < D ->
       let diff := Some (second_derivative_index D i) in
       regularization_matrix x eps order diff = Ok (R i) /\
       nrows (R i) = N /\ ncols (R i) = N + P /\
       (forall r c, r < N -> c < N ->
          mget (R i) r c
          = phi diff (row x r) (row x c) (nth c eps (of_int 0))) /\
       (forall r c, r < N -> c < P ->
          mget (R i) r (N + c) = monomial diff (row x r) (nth c powers []))) /\
    laplacian_diff_op D
    = map (fun i => (of_int 1, second_derivative_index D i)) (seq 0 D) /\
    laplacian_matrix x eps order = Ok (SumArr L) /\
    nrows L = N /\ ncols L = N + P /\
    forall r c, r < N -> c < N + P ->
      mget L r c
      = fsum (map (fun i => fmul (of_int 1) (mget (R i) r c)) (seq 0 D)).
Proof.
  intros N D powers P He HD.
  set (R := fun i =>
    match regularization_matrix x eps order
            (Some (second_derivative_index D i)) with
    | Ok m => m
    | _ => zeros 0 0
    end).
  assert (HR : forall i, i < D ->
    let diff := Some (second_derivative_index D i) in
    regularization_matrix x eps order diff = Ok (R i) /\
    nrows (R i) = N /\ ncols (R i) = N + P /\
    (forall r c, r < N -> c < N ->
       mget (R i) r c = phi diff (row x r) (row x c) (nth c eps (of_int 0))) /\
    (forall r c, r < N -> c < P ->
       mget (R i) r (N + c) = monomial diff (row x r) (nth c powers []))).
  { intros i _ diff. subst R. cbn beta.
    destruct (regularization_matrix_entries x eps order diff He)
      as (m & Hm & Hr & Hc & Hphi & Hmono).
    fold diff. rewrite Hm. auto. }
  exists R.
  destruct (laplacian_matrix_entries x eps order R HD)
    as (L & HL & HLr & HLc & HLe).
  { intros i Hi. destruct (HR i Hi) as (H1 & H2 & H3 & _). auto. }
  exists L. split; [exact HR|]. split; [apply laplacian_diff_op_terms|]. auto.
Qed.

Lemma laplacian_matrix_ok (x : matrix F) (eps : list F) (order : nat) :
  length eps = nrows x ->
  exists L : pysum F, laplacian_matrix x eps order = Ok L.
Proof.
  intros He. destruct (ncols x) as [|D'] eqn:ED.
  - exists SumInt0. unfold laplacian_matrix. now rewrite ED.
  - destruct (laplacian_sum_shape x eps order He) as (L & HL & _);
      [lia|].
    eauto.
Qed.

End BuilderFacts.

(** ** The constructor *)

Section InitFacts.
Context {F : Type} `{Collaborators F}.

Lemma map_nth2_zip_with (op : F -> F -> F) (d : F) (v w : list F) :
  length w = length v ->
  map (fun i => op (nth i v d) (nth i w d)) (seq 0 (length v)) = zip_with op v w.
Proof.
  revert w. induction v as [|a v IH]; intros [|b w] Hl; try discriminate;
    [reflexivity|].
  simpl. f_equal. rewrite <- seq_shift, map_map. apply IH. simpl in Hl. lia.
Qed.

Lemma vget_nth (w : list F) (i : nat) :
  i < length w -> vget w i = nth i w (of_int 0).
Proof.
  intros Hi. unfold vget. destruct (Nat.eqb_spec (length w) 1); [|reflexivity].
  f_equal. lia.
Qed.

Lemma vew2_inplace_same (op : F -> F -> F) (v w : list F) :
  length w = length v -> vew2_inplace op v w = Ok (zip_with op v w).
Proof.
  intros Hl. unfold vew2_inplace. rewrite Hl, Nat.eqb_refl. cbn [orb]. f_equal.
  rewrite <- (map_nth2_zip_with op (of_int 0)) by assumption.
  apply map_seq_ext. intros i Hi. now rewrite vget_nth by lia.
Qed.

Lemma vew2_same (op : F -> F -> F) (v w : list F) :
  length w = length v -> vew2 op v w = Ok (zip_with op v w).
Proof.
  intros Hl. unfold vew2. rewrite Hl, bdim_same. f_equal.
  rewrite <- (map_nth2_zip_with op (of_int 0)) by assumption.
  apply map_seq_ext. intros i Hi. now rewrite !vget_nth by lia.
Qed.

Lemma vew2_inplace_ok (op : F -> F -> F) (v w : list F) :
  length w = length v \/ length w = 1 ->
  exists v', vew2_inplace op v w = Ok v' /\ length v' = length v.
Proof.
  intros Hl. unfold vew2_inplace.
  replace ((length w =? length v) || (length w =? 1)) with true.
  - eexists. split; [reflexivity|]. now rewrite length_map, length_seq.
  - symmetry. apply orb_true_iff. rewrite !Nat.eqb_eq. exact Hl.
Qed.

Lemma vew2_inplace_mismatch (op : F -> F -> F) (v w : list F) :
  length w <> length v -> length w <> 1 ->
  vew2_inplace op v w = Raise ValueError.
Proof.
  intros H1 H2. unfold vew2_inplace.
  apply Nat.eqb_neq in H1, H2. now rewrite H1, H2.
Qed.

Lemma scale_rows_exact (A : matrix F) (n : nat) (w : list F) :
  n <= nrows A -> length w = n ->
  scale_rows A n w
  = Ok (tabulate (nrows A) (ncols A) (fun i j =>
          if i <? n then fmul (mget A i j) (nth i w (of_int 0)) else mget A i j)).
Proof.
  intros Hn Hw. subst n. unfold scale_rows.
  replace (Nat.min (length w) (nrows A)) with (length w) by lia.
  unfold broadcast_to. cbn [nrows ncols column tabulate].
  rewrite !Nat.eqb_refl, orb_true_r. cbn [orb andb bind]. f_equal.
  apply tabulate_ext. intros i j Hi Hj.
  destruct (Nat.ltb_spec i (length w)) as [Hin|]; [|reflexivity].
  f_equal. rewrite mget_tabulate by lia.
  unfold bget, column. cbn [nrows ncols tabulate]. rewrite Nat.eqb_refl.
  rewrite mget_tabulate; [| destruct (length w =? 1); lia | lia].
  destruct (Nat.eqb_spec (length w) 1); [f_equal; lia | reflexivity].
Qed.

Lemma scale_rows_ok (A : matrix F) (n : nat) (w : list F) :
  n <= nrows A -> length w = n \/ length w = 1 ->
  exists A', scale_rows A n w = Ok A' /\
             nrows A' = nrows A /\ ncols A' = ncols A.
Proof.
  intros Hn Hw. unfold scale_rows.
  replace (Nat.min n (nrows A)) with n by lia.
  unfold broadcast_to. cbn [nrows ncols column tabulate].
  replace ((length w =? n) || (length w =? 1)) with true
    by (symmetry; apply orb_true_iff; rewrite !Nat.eqb_eq; exact Hw).
  rewrite Nat.eqb_refl, orb_true_r. cbn [andb bind].
  eexists. split; [reflexivity|]. split; reflexivity.
Qed.

Lemma scale_rows_mismatch (A : matrix F) (n : nat) (w : list F) :
  n <= nrows A -> length w <> n -> length w <> 1 ->
  scale_rows A n w = Raise ValueError.
Proof.
  intros Hn H1 H2. unfold scale_rows.
  replace (Nat.min n (nrows A)) with n by lia.
  unfold broadcast_to. cbn [nrows ncols column tabulate].
  apply Nat.eqb_neq in H1, H2. now rewrite H1, H2.
Qed.

Lemma coefficient_matrix_ok (x : matrix F) (eps : list F) (order : nat) :
  length eps = nrows x ->
  exists A, coefficient_matrix x eps order = Ok A /\
    nrows A = nrows x + length (monomial_powers order (ncols x)) /\
    ncols A = nrows x + length (monomial_powers order (ncols x)).
Proof.
  intros He. unfold coefficient_matrix.
  rewrite (basis_ok x x eps None He). cbn [bind].
  rewrite set_block_exact by (cbn [nrows ncols zeros tabulate]; lia).
  cbn [bind nrows ncols zeros tabulate].
  rewrite set_block_exact
    by (cbn [nrows ncols transpose mvmonos tabulate]; lia).
  cbn [bind nrows ncols tabulate].
  rewrite set_block_exact by (cbn [nrows ncols mvmonos tabulate]; lia).
  cbn [bind nrows ncols tabulate].
  eexists. split; [reflexivity|]. split; reflexivity.
Qed.

Lemma length_ones1 (n : nat) : length (ones1 (F:=F) n) = n.
Proof. apply repeat_length. Qed.

Lemma init_store (x : matrix F) (value : arg1d F) (weight : option (arg1d F))
  (eps : option (list F)) (order : nat) (extrapolate : bool) (fill : F)
  (penalty : damping F) (h : gmap loc (list F)) :
  snd (RBFInterpolant_init x value weight eps order extrapolate fill penalty h)
  = snd (fit_system x value weight eps order h).
Proof.
  unfold RBFInterpolant_init. now destruct (fit_system x value weight eps order h).
Qed.

Lemma init_result (x : matrix F) (value : arg1d F) (weight : option (arg1d F))
  (eps : option (list F)) (order : nat) (extrapolate : bool) (fill : F)
  (penalty : damping F) (h : gmap loc (list F)) :
  fst (RBFInterpolant_init x value weight eps order extrapolate fill penalty h)
  = (s <- fst (fit_system x value weight eps order h) ;;
     coeff <- match sys_L s with
              | SumArr L => find_coeff (sys_A s) L (sys_value s) penalty
              | SumInt0 => find_coeff_int_L (sys_A s) (sys_value s)
              end ;;
     Ok (Interpolant x coeff order (sys_eps s) extrapolate fill)).
Proof.
  unfold RBFInterpolant_init. now destruct (fit_system x value weight eps order h).
Qed.

(** The system of a well-sized fit: the weighted matrix, the weighted
    observations, the regularization matrix and the store. *)
Lemma fit_system_sized (x : matrix F) (value w : arg1d F)
  (eps : option (list F)) (order : nat) (h : gmap loc (list F))
  (vals ws : list F) (A0 : matrix F) (L : pysum F) :
  let N := nrows x in
  let eps' := match eps with None => ones1 N | Some e => e end in
  coefficient_matrix x eps' order = Ok A0 ->
  N <= nrows A0 ->
  laplacian_matrix x eps' order = Ok L ->
  asarray h w = Ok ws -> length ws = N ->
  asarray h value = Ok vals -> length vals = N ->
  fit_system x value (Some w) eps order h
  = (Ok (System
           (tabulate (nrows A0) (ncols A0) (fun i j =>
              if i <? N then fmul (mget A0 i j) (nth i ws (of_int 0))
              else mget A0 i j))
           L (zip_with fmul vals ws) eps'),
     match value with
     | NdArray r => <[r := zip_with fmul vals ws]> h
     | PyList _ => h
     end).
Proof.
  intros N eps' HA0 HN HL Hw Hws Hv Hvals.
  unfold fit_system. fold N eps'. rewrite Hw, HA0. cbn [bind].
  rewrite scale_rows_exact by assumption.
  destruct value as [l|r]; cbn [asarray] in Hv.
  - inversion Hv; subst l. cbn [imul_value].
    rewrite vew2_same by congruence. cbn [bind]. now rewrite HL.
  - destruct (h !! r) as [v|] eqn:Hr; [|discriminate].
    inversion Hv; subst v. cbn [imul_value]. rewrite Hr.
    rewrite vew2_inplace_same by congruence. cbn [bind]. now rewrite HL.
Qed.

(** C7: with a weight vector, exactly the first [N] rows of [A] are scaled
    row-wise by the weights and the observations entrywise, while the [P]
    polynomial rows of [A] and the regularization matrix are left as built. *)
Theorem fit_system_weights (x : matrix F) (value w : arg1d F)
  (eps : option (list F)) (order : nat) (h : gmap loc (list F))
  (vals ws : list F) :
  let N := nrows x in
  let P := length (monomial_powers order (ncols x)) in
  let eps' := match eps with None => ones1 N | Some e => e end in
  length eps' = N ->
  asarray h w = Ok ws -> length ws = N ->
  asarray h value = Ok vals -> length vals = N ->
  exists (A0 A : matrix F) (L : pysum F),
    coefficient_matrix x eps' order = Ok A0 /\
    laplacian_matrix x eps' order = Ok L /\
    fst (fit_system x value (Some w) eps order h)
    = Ok (System A L (zip_with fmul vals ws) eps') /\
    nrows A = N + P /\ ncols A = N + P /\
    (forall i j, i < N -> j < N + P ->
       mget A i j = fmul (mget A0 i j) (nth i ws (of_int 0))) /\
    (forall i j, N <= i -> i < N + P -> j < N + P ->
       mget A i j = mget A0 i j).
Proof.
  intros N P eps' He Hw Hws Hv Hvals.
  destruct (coefficient_matrix_ok x eps' order He) as (A0 & HA0 & Hr & Hc).
  destruct (laplacian_matrix_ok x eps' order He) as (L & HL).
  fold N P in Hr, Hc.
  exists A0. eexists. exists L.
  split; [exact HA0|]. split; [exact HL|]. split.
  - rewrite (fit_system_sized x value w eps order h vals ws A0 L);
      try assumption; [reflexivity | lia].
  - cbn [nrows ncols tabulate]. rewrite Hr, Hc.
    split; [reflexivity|]. split; [reflexivity|].
    split; intros i j; intros; rewrite mget_tabulate by lia; decide_bounds;
      reflexivity.
Qed.

(** C10: constructing the interpolant with a weight vector multiplies the
    caller's observation array in place, entry by entry, when the values
    were passed as an array; a Python list is left alone. *)
Theorem init_scales_value_in_place (x : matrix F) (r : loc) (w : arg1d F)
  (eps : option (list F)) (order : nat) (extrapolate : bool) (fill : F)
  (penalty : damping F) (h : gmap loc (list F)) (vals ws : list F) :
  let N := nrows x in
  let eps' := match eps with None => ones1 N | Some e => e end in
  length eps' = N ->
  h !! r = Some vals -> length vals = N ->
  asarray h w = Ok ws -> length ws = N ->
  snd (RBFInterpolant_init x (NdArray r) (Some w) eps order extrapolate fill
         penalty h)
  = <[r := zip_with fmul vals ws]> h /\
  forall l : list F,
    snd (RBFInterpolant_init x (PyList l) (Some w) eps order extrapolate fill
           penalty h) = h.
Proof.
  intros N eps' He Hr Hvals Hw Hws.
  destruct (coefficient_matrix_ok x eps' order He) as (A0 & HA0 & HAr & HAc).
  destruct (laplacian_matrix_ok x eps' order He) as (L & HL).
  split.
  - rewrite init_store.
    rewrite (fit_system_sized x (NdArray r) w eps order h vals ws A0 L);
      try assumption; [reflexivity | fold N; lia |].
    cbn [asarray]. now rewrite Hr.
  - intros l. rewrite init_store. unfold fit_system. fold N eps'.
    rewrite Hw, HA0. cbn [bind].
    rewrite scale_rows_exact by (assumption || fold N; lia).
    cbn [imul_value]. reflexivity.
Qed.

(** What [__init__] returns is [fitted]: the constructor stores one shape
    parameter per training point and one coefficient per column. *)
Lemma coefficient_matrix_eps (x : matrix F) (eps : list F) (order : nat)
  (A : matrix F) :
  coefficient_matrix x eps order = Ok A -> length eps = nrows x.
Proof.
  unfold coefficient_matrix, basis.
  destruct (Nat.eqb_spec (length eps) (nrows x)); [auto | discriminate].
Qed.

Lemma scale_rows_shape (A A' : matrix F) (n : nat) (w : list F) :
  scale_rows A n w = Ok A' -> nrows A' = nrows A /\ ncols A' = ncols A.
Proof.
  unfold scale_rows. destruct (broadcast_to _ _ _); cbn [bind]; try discriminate.
  intros E. inversion E. split; reflexivity.
Qed.

Lemma laplacian_matrix_shape (x : matrix F) (eps : list F) (order : nat)
  (L : matrix F) :
  length eps = nrows x ->
  laplacian_matrix x eps order = Ok (SumArr L) ->
  nrows L = nrows x /\
  ncols L = nrows x + length (monomial_powers order (ncols x)).
Proof.
  intros He HL.
  destruct (Nat.eq_dec (ncols x) 0) as [HD|HD].
  - unfold laplacian_matrix in HL. rewrite HD in HL. discriminate.
  - destruct (laplacian_sum_shape x eps order He ltac:(lia))
      as (L' & HL' & Hr & Hc).
    rewrite HL in HL'. inversion HL'. subst L'. auto.
Qed.

Lemma find_coeff_length (A L : matrix F) (value : list F) (dmp : damping F)
  (c : list F) :
  inv_keeps_shape -> ncols L = ncols A ->
  find_coeff A L value dmp = Ok c -> length c = ncols A.
Proof.
  intros Hinv HL. unfold find_coeff.
  destruct (nrows A <? length value); [discriminate|].
  rewrite !dot_transpose_gram. cbn [bind].
  destruct (linalg_cond (gram A)); cbn [bind]; try discriminate.
  destruct (match dmp with GCV => _ | Fixed d => Ok d end) as [d| |];
    cbn [bind]; try discriminate.
  rewrite ew2_same_shape by (cbn [nrows ncols gram smul tabulate]; congruence).
  cbn [bind].
  destruct (linalg_inv _) as [Xi| |] eqn:EI; cbn [bind]; try discriminate.
  destruct (Hinv _ _ EI) as [Hr _]. cbn [nrows gram tabulate] in Hr.
  unfold dot. destruct (ncols Xi =? nrows (transpose A)); cbn [bind];
    try discriminate.
  unfold dotv. cbn [nrows ncols tabulate].
  destruct (_ =? _); try discriminate.
  intros E. inversion E. now rewrite length_map, length_seq.
Qed.

Lemma init_fitted (x : matrix F) (value : arg1d F) (weight : option (arg1d F))
  (eps : option (list F)) (order : nat) (extrapolate : bool) (fill : F)
  (penalty : damping F) (h : gmap loc (list F)) (itp : interpolant F) :
  inv_keeps_shape ->
  fst (RBFInterpolant_init x value weight eps order extrapolate fill penalty h)
  = Ok itp ->
  fitted itp /\ itp_x itp = x /\ itp_order itp = order.
Proof.
  intros Hinv. rewrite init_result. unfold fit_system.
  set (eps' := match eps with None => ones1 (nrows x) | Some e => e end).
  destruct (match weight with None => _ | Some w => _ end) as [ws| |];
    try discriminate.
  destruct (coefficient_matrix x eps' order) as [A0| |] eqn:HA0;
    cbn [bind]; try discriminate.
  pose proof (coefficient_matrix_eps _ _ _ _ HA0) as He.
  destruct (coefficient_matrix_ok x eps' order He) as (A0' & HA0' & Hr0 & Hc0).
  rewrite HA0 in HA0'. inversion HA0'. subst A0'.
  destruct (scale_rows A0 (nrows x) ws) as [A| |] eqn:HA; try discriminate.
  destruct (scale_rows_shape _ _ _ _ HA) as [Hr Hc].
  destruct (imul_value value ws h) as [v h']. cbn [fst].
  destruct v as [v| |]; cbn [bind]; try discriminate.
  destruct (laplacian_matrix x eps' order) as [L| |] eqn:HL;
    cbn [bind sys_L sys_A sys_value sys_eps]; try discriminate.
  destruct L as [|L].
  { unfold find_coeff_int_L. destruct (_ <? _); try discriminate.
    destruct (dot _ _); cbn [bind]; try discriminate.
    destruct (linalg_cond _); discriminate. }
  destruct (laplacian_matrix_shape x eps' order L He HL) as [HLr HLc].
  destruct (find_coeff A L v penalty) as [c| |] eqn:Hc'; cbn [bind];
    try discriminate.
  intros E. inversion E. subst itp. unfold fitted.
  cbn [itp_x itp_coeff itp_order itp_eps].
  split; [|split; reflexivity]. split; [exact He|].
  rewrite (find_coeff_length A L v penalty c Hinv) by (assumption || congruence).
  congruence.
Qed.

(** C9, as the code has it: the constructor checks no length itself.  With
    the values in an array of length [K] and a weight vector of length [W]
    ([N] when omitted), numpy refuses the fit when [W] is neither [N] nor
    [1], when [K] differs from [W] and [W] is not [1], or when [K] exceeds
    [N + P]. *)
Theorem init_length_mismatch (x : matrix F) (r : loc) (weight : option (arg1d F))
  (eps : option (list F)) (order : nat) (extrapolate : bool) (fill : F)
  (penalty : damping F) (h : gmap loc (list F)) (vals ws : list F) :
  let N := nrows x in
  let P := length (monomial_powers order (ncols x)) in
  let eps' := match eps with None => ones1 N | Some e => e end in
  length eps' = N ->
  h !! r = Some vals ->
  match weight with None => Ok (ones1 N) | Some w => asarray h w end = Ok ws ->
  (length ws <> N /\ length ws <> 1) \/
  (length vals <> length ws /\ length ws <> 1) \/
  N + P < length vals ->
  fst (RBFInterpolant_init x (NdArray r) weight eps order extrapolate fill
         penalty h)
  = Raise ValueError.
Proof.
  intros N P eps' He Hr Hw Hbad.
  destruct (coefficient_matrix_ok x eps' order He) as (A0 & HA0 & HAr & HAc).
  destruct (laplacian_matrix_ok x eps' order He) as (L & HL).
  fold N P in HAr, HAc.
  rewrite init_result. unfold fit_system. fold N eps'. rewrite Hw, HA0.
  cbn [bind].
  destruct (Nat.eq_dec (length ws) N) as [HWN|HWN];
    [|destruct (Nat.eq_dec (length ws) 1) as [HW1|HW1]].
  3:{ rewrite scale_rows_mismatch by lia. reflexivity. }
  all: destruct (scale_rows_ok A0 N ws) as (A & HA & HAr' & HAc');
    [lia | tauto | rewrite HA].
  all: cbn [imul_value]; rewrite Hr.
  all: destruct (Nat.eq_dec (length ws) (length vals)) as [HWK|HWK];
    [|destruct (Nat.eq_dec (length ws) 1) as [HW1'|HW1']].
  all: try (rewrite vew2_inplace_mismatch by lia; reflexivity).
  all: destruct (vew2_inplace_ok fmul vals ws) as (v' & Hv' & Hlen);
    [tauto | rewrite Hv'].
  all: cbn [fst bind]; rewrite HL; cbn [bind sys_L sys_A sys_value].
  all: assert (HK : nrows A < length v') by lia.
  all: apply Nat.ltb_lt in HK.
  all: destruct L; unfold find_coeff, find_coeff_int_L; now rewrite HK.
Qed.

End InitFacts.

(** ** Evaluation *)

Section CallFacts.
Context {F : Type} `{Collaborators F}.

Lemma map_seq_shift {A : Type} (f : nat -> A) (n k : nat) :
  map f (seq n k) = map (fun i => f (n + i)) (seq 0 k).
Proof.
  revert n. induction k as [|k IH]; intros n; [reflexivity|].
  simpl. f_equal; [f_equal; lia|].
  rewrite IH, <- seq_shift, map_map.
  apply map_ext. intros i. f_equal. lia.
Qed.

Lemma length_row (A : matrix F) (i : nat) : length (row A i) = ncols A.
Proof. unfold row. now rewrite length_map, length_seq. Qed.

Lemma row_take_rows (A : matrix F) (idx : list nat) (i : nat) :
  i < length idx -> row (take_rows A idx) i = row A (nth i idx 0).
Proof.
  intros Hi. unfold row, take_rows. cbn [ncols tabulate].
  apply map_seq_ext. intros j Hj. now rewrite mget_tabulate.
Qed.

(** One interpolation matrix times the coefficients: every output entry is
    the interpolated value at its own query point. *)
Lemma interpolated_values_rows (itp : interpolant F) (xq : matrix F)
  (diff : option (list nat)) :
  fitted itp -> ncols xq = ncols (itp_x itp) ->
  interpolated_values itp xq diff
  = Ok (map (fun i => interpolate_point itp diff (row xq i)) (seq 0 (nrows xq))).
Proof.
  intros [He Hc] HD. unfold interpolated_values, interpolation_matrix.
  rewrite (basis_ok xq (itp_x itp) (itp_eps itp) diff He). cbn [bind].
  rewrite set_block_exact by (cbn [nrows ncols zeros tabulate]; lia).
  cbn [bind nrows ncols zeros tabulate].
  rewrite set_block_exact by (cbn [nrows ncols mvmonos tabulate]; lia).
  cbn [bind nrows ncols tabulate].
  unfold dotv. cbn [nrows ncols tabulate].
  rewrite HD, Hc, Nat.eqb_refl. f_equal.
  apply map_seq_ext. intros i Hi.
  unfold interpolate_point, interpolation_row.
  rewrite length_app, !length_map, length_seq, length_row, HD. f_equal.
  set (N := nrows (itp_x itp)).
  set (powers := monomial_powers (itp_order itp) (ncols (itp_x itp))).
  apply map_seq_ext. intros k Hk. f_equal.
  rewrite (mget_tabulate (nrows xq) (N + length powers)) by assumption.
  decide_bounds.
  - rewrite Nat.sub_0_r. unfold mvmonos. rewrite mget_tabulate by lia.
    rewrite app_nth2 by (rewrite length_map, length_seq; lia).
    rewrite length_map, length_seq. fold N.
    rewrite (nth_indep _ (of_int 0)
               (monomial diff (row xq i) [])) by (rewrite length_map; fold powers; lia).
    now rewrite (map_nth (fun pw => monomial diff (row xq i) pw)).
  - rewrite (mget_tabulate (nrows xq) (N + length powers)) by assumption.
    decide_bounds. rewrite !Nat.sub_0_r.
    rewrite mget_tabulate by lia.
    rewrite app_nth1 by (rewrite length_map, length_seq; fold N; lia).
    rewrite nth_map_seq by (fold N; lia).
    reflexivity.
Qed.

Lemma set_block_shape (A B A' : matrix F) (r0 r1 c0 c1 : nat) :
  set_block A r0 r1 c0 c1 B = Ok A' -> nrows A' = nrows A /\ ncols A' = ncols A.
Proof.
  unfold set_block. destruct (broadcast_to _ _ B); cbn [bind]; try discriminate.
  intros E. injection E as <-. split; reflexivity.
Qed.

(** Whatever the interpolant, a matrix that [interpolation_matrix] returns
    has one row per query point and [N + P] columns. *)
Lemma interpolation_matrix_shape (xq x A : matrix F) (diff : option (list nat))
  (eps : list F) (order : nat) :
  interpolation_matrix xq x diff eps order = Ok A ->
  nrows A = nrows xq /\
  ncols A = nrows x + length (monomial_powers order (ncols xq)).
Proof.
  unfold interpolation_matrix.
  destruct (basis xq x eps diff) as [B| |]; cbn [bind]; try discriminate.
  destruct (set_block _ 0 _ 0 _ B) as [A1| |] eqn:E1; cbn [bind];
    try discriminate.
  destruct (set_block A1 _ _ _ _ _) as [A2| |] eqn:E2; cbn [bind];
    try discriminate.
  intros E. injection E as <-.
  apply set_block_shape in E1, E2. cbn [nrows ncols zeros tabulate] in E1.
  destruct E1 as [E1r E1c], E2 as [E2r E2c]. split; congruence.
Qed.

Lemma fold_insert_range (vals : list F) :
  forall pre mid post : list F,
  length mid = length vals ->
  fold_left (fun (o : list F) (iv : nat * F) => <[fst iv := snd iv]> o)
    (combine (seq (length pre) (length vals)) vals) (pre ++ mid ++ post)
  = pre ++ vals ++ post.
Proof.
  induction vals as [|v vs IH]; intros pre mid post Hl.
  - destruct mid; [reflexivity | discriminate].
  - destruct mid as [|m ms]; [discriminate|]. cbn [length seq combine fold_left fst snd].
    rewrite insert_app_r_alt by lia. rewrite Nat.sub_diag. cbn [app].
    change (<[0 := v]> (m :: ms ++ post)) with (v :: ms ++ post).
    specialize (IH (pre ++ [v]) ms post).
    rewrite length_app in IH. cbn [length] in IH.
    replace (length pre + 1) with (S (length pre)) in IH by lia.
    rewrite <- !app_assoc in IH. cbn [app] in IH. apply IH.
    simpl in Hl. lia.
Qed.

Lemma assign_at_range (pre mid post vals : list F) :
  length mid = length vals ->
  assign_at (pre ++ mid ++ post) (seq (length pre) (length vals)) vals
  = Ok (pre ++ vals ++ post).
Proof.
  intros Hl. unfold assign_at.
  replace (forallb _ _) with true.
  2:{ symmetry. apply forallb_forall. intros i Hi. apply in_seq in Hi.
      apply Nat.ltb_lt. rewrite !length_app. lia. }
  cbn [negb]. rewrite length_seq, Nat.eqb_refl. cbn [orb]. f_equal.
  replace (map (vget vals) (seq 0 (length vals))) with vals.
  - now apply fold_insert_range.
  - rewrite <- (map_id vals) at 1.
    rewrite <- (map_nth_seq vals (of_int 0) (fun a => a)).
    apply map_seq_ext. intros i Hi. now rewrite vget_nth.
Qed.

(** The loop of [__call__]: whatever the chunk size, enough fuel fills
    [out] with the interpolated value of every query point. *)
Lemma call_loop_fills (itp : interpolant F) (xitp : matrix F)
  (diff : option (list nat)) (chunk : nat) :
  fitted itp -> ncols xitp = ncols (itp_x itp) -> 1 <= chunk ->
  forall (fuel n : nat),
  nrows xitp - n <= fuel ->
  call_loop fuel chunk itp xitp diff n
    (map (fun i => interpolate_point itp diff (row xitp i))
         (seq 0 (Nat.min n (nrows xitp)))
     ++ repeat (of_int 0) (nrows xitp - n))
  = Ok (map (fun i => interpolate_point itp diff (row xitp i))
            (seq 0 (nrows xitp))).
Proof.
  intros Hfit HD Hc.
  set (g := fun i => interpolate_point itp diff (row xitp i)).
  induction fuel as [|fuel IH]; intros n Hfuel.
  - cbn [call_loop]. destruct (Nat.ltb_spec n (nrows xitp)); [lia|].
    replace (Nat.min n (nrows xitp)) with (nrows xitp) by lia.
    replace (nrows xitp - n) with 0 by lia. now rewrite app_nil_r.
  - cbn [call_loop]. destruct (Nat.ltb_spec n (nrows xitp)) as [Hn|Hn].
    2:{ replace (Nat.min n (nrows xitp)) with (nrows xitp) by lia.
        replace (nrows xitp - n) with 0 by lia. now rewrite app_nil_r. }
    set (k := Nat.min (n + chunk) (nrows xitp) - n).
    assert (Hk : 1 <= k /\ n + k <= nrows xitp) by lia.
    pose proof (interpolated_values_rows itp (take_rows xitp (seq n k)) diff
                  Hfit HD) as Hv.
    unfold interpolated_values in Hv.
    destruct (interpolation_matrix (take_rows xitp (seq n k)) (itp_x itp) diff
                (itp_eps itp) (itp_order itp)) as [A| |] eqn:EA;
      cbn [bind] in Hv; try discriminate.
    cbn [bind]. rewrite einsum_dotv.
    2:{ apply interpolation_matrix_shape in EA. destruct EA as [_ EA].
        cbn [ncols take_rows tabulate] in EA. destruct Hfit as [_ Hl].
        rewrite EA, Hl, HD. reflexivity. }
    rewrite Hv. clear Hv EA A.
    cbn [bind nrows take_rows tabulate]. rewrite length_seq.
    replace (Nat.min n (nrows xitp)) with n by lia.
    replace (nrows xitp - n) with (k + (nrows xitp - (n + k))) by lia.
    rewrite repeat_app.
    replace (map (fun i => interpolate_point itp diff
                             (row (take_rows xitp (seq n k)) i)) (seq 0 k))
      with (map g (seq n k)).
    2:{ rewrite map_seq_shift. apply map_seq_ext. intros i Hi. subst g. cbn beta.
        rewrite row_take_rows by (rewrite length_seq; lia).
        now rewrite seq_nth by lia. }
    pose proof (assign_at_range (map g (seq 0 n)) (repeat (of_int 0) k)
                  (repeat (of_int 0) (nrows xitp - (n + k))) (map g (seq n k))) as Ha.
    rewrite !length_map, !length_seq, repeat_length in Ha.
    rewrite Ha by reflexivity. cbn [bind].
    specialize (IH (n + chunk) ltac:(lia)).
    replace (Nat.min (n + chunk) (nrows xitp)) with (n + k) in IH by lia.
    replace (nrows xitp - (n + chunk)) with (nrows xitp - (n + k)) in IH by lia.
    rewrite seq_app, map_app, <- app_assoc in IH. exact IH.
Qed.

Lemma call_with_at_once (itp : interpolant F) (xitp : matrix F)
  (diff : option (list nat)) (chunk fuel : nat) :
  fitted itp -> ncols xitp = ncols (itp_x itp) -> 1 <= chunk ->
  nrows xitp <= fuel ->
  call_with chunk fuel itp xitp diff = evaluate_at_once itp xitp diff.
Proof.
  intros Hfit HD Hc Hfuel. unfold call_with, evaluate_at_once.
  pose proof (call_loop_fills itp xitp diff chunk Hfit HD Hc fuel 0 ltac:(lia)) as Hl.
  cbn [Nat.min seq map app] in Hl. rewrite Nat.sub_0_r in Hl.
  unfold zeros1. rewrite Hl.
  now rewrite interpolated_values_rows.
Qed.

(** C5: for a fitted interpolant, any derivative and any query points, the
    output does not depend on the chunk size: every chunk size gives the
    values of a single evaluation of all points, and so does the chunk size
    of the source. *)
Theorem chunk_invariance (itp : interpolant F) (xitp : matrix F)
  (diff : option (list nat)) (chunk fuel : nat) :
  fitted itp -> ncols xitp = ncols (itp_x itp) ->
  1 <= chunk -> nrows xitp <= fuel ->
  call_with chunk fuel itp xitp diff = evaluate_at_once itp xitp diff /\
  call_with chunk fuel itp xitp diff = RBFInterpolant_call fuel itp xitp diff.
Proof.
  intros Hfit HD Hc Hfuel. split.
  - now apply call_with_at_once.
  - unfold RBFInterpolant_call.
    rewrite !call_with_at_once; try assumption; [reflexivity|].
    unfold max_chunk. lia.
Qed.

Lemma fill_outside_maps (g : nat -> F) (m : nat -> bool) (n : nat) (fill : F) :
  fill_outside (map g (seq 0 n)) (map m (seq 0 n)) fill
  = Ok (map (fun i => if m i then g i else fill) (seq 0 n)).
Proof.
  unfold fill_outside. rewrite !length_map, length_seq, Nat.eqb_refl. f_equal.
  apply map_seq_ext. intros i Hi. now rewrite !nth_map_seq.
Qed.

Lemma reduce1_flatten_ok (op : F -> F -> F) (x : matrix F) :
  1 <= nrows x -> 1 <= ncols x -> exists a, reduce1 op (flatten x) = Ok a.
Proof.
  intros Hr Hc. unfold flatten, row.
  destruct (nrows x) as [|r]; [lia|]. destruct (ncols x) as [|c]; [lia|].
  cbn [seq map concat app reduce1]. eauto.
Qed.

(** C6: with [extrapolate=False] every query point outside the hull of the
    training points gets the fill value and every point inside gets its
    interpolated value (its interpolation-matrix row times the coefficients).
    In dimension 1 a point is inside iff [min <= p <= max] over the training
    points, bounds included; from dimension 2 on, iff the triangulation of
    the training points finds a simplex for it. *)
Theorem hull_gate (itp : interpolant F) (xitp : matrix F)
  (diff : option (list nat)) (fuel : nat) :
  fitted itp -> itp_extrapolate itp = false ->
  ncols xitp = ncols (itp_x itp) -> nrows xitp <= fuel ->
  let value := fun i => interpolate_point itp diff (row xitp i) in
  (ncols xitp = 1 -> 1 <= nrows (itp_x itp) ->
   exists mn mx : F,
     np_min (itp_x itp) = Ok mn /\ np_max (itp_x itp) = Ok mx /\
     RBFInterpolant_call fuel itp xitp diff
     = Ok (map (fun i =>
                  if fle mn (mget xitp i 0) && fle (mget xitp i 0) mx
                  then value i else itp_fill itp)
               (seq 0 (nrows xitp)))) /\
  (2 <= ncols xitp ->
   forall s : list Z,
     delaunay_find_simplex (itp_x itp) xitp = Ok s ->
     length s = nrows xitp ->
     RBFInterpolant_call fuel itp xitp diff
     = Ok (map (fun i =>
                  if (0 <=? nth i s (-1))%Z then value i else itp_fill itp)
               (seq 0 (nrows xitp)))).
Proof.
  intros Hfit Hex HD Hfuel value.
  assert (Hcall : RBFInterpolant_call fuel itp xitp diff
                  = (mask <- in_hull xitp (itp_x itp) ;;
                     fill_outside (map value (seq 0 (nrows xitp))) mask
                       (itp_fill itp))).
  { unfold RBFInterpolant_call.
    rewrite call_with_at_once by (assumption || unfold max_chunk; lia).
    unfold evaluate_at_once.
    rewrite interpolated_values_rows by assumption.
    cbn [bind]. now rewrite Hex. }
  split.
  - intros H1 HN.
    destruct (reduce1_flatten_ok fminimum (itp_x itp)) as (mn & Hmn); [lia..|].
    destruct (reduce1_flatten_ok fmaximum (itp_x itp)) as (mx & Hmx); [lia..|].
    exists mn, mx. split; [exact Hmn|]. split; [exact Hmx|].
    rewrite Hcall. unfold in_hull, np_min, np_max. rewrite Hmn, Hmx, H1.
    cbn [Nat.leb Nat.eqb bind].
    apply fill_outside_maps.
  - intros H2 s Hs Hlen. rewrite Hcall. unfold in_hull.
    replace (2 <=? ncols xitp) with true by (symmetry; apply Nat.leb_le; lia).
    rewrite Hs. cbn [bind].
    rewrite <- (map_nth_seq s (-1)%Z (fun k => (0 <=? k)%Z)), Hlen.
    apply fill_outside_maps.
Qed.

End CallFacts.

(** ** The instances *)

#[export] Instance Z_exact : ExactArith Z.
Proof.
  split; cbn [of_int fadd fmul fpow Z_scalar].
  - intros a b c. apply Z.add_assoc.
  - intros a. apply Z.add_0_l.
  - intros a. apply Z.add_0_r.
  - intros d. destruct (Z.lt_ge_cases d 0) as [Hneg|Hpos].
    + rewrite (Z.pow_neg_r 10 (2 * d)), (Z.pow_neg_r 10 d) by lia. reflexivity.
    + rewrite Z.mul_comm. apply Z.pow_mul_r; lia.
Qed.

Lemma diag_inv_keeps_shape {F : Type} `{Scalar F} :
  inv_keeps_shape (F := F).
Proof.
  intros X Y. cbn [linalg_inv example_collaborators]. unfold diag_inv.
  destruct (Nat.eqb_spec (nrows X) (ncols X)) as [Hsq|]; [|discriminate].
  cbn [negb]. destruct (forallb _ _); [|discriminate].
  cbn [negb]. destruct (existsb _ _); [discriminate|].
  intros HY. inversion HY. cbn [nrows ncols tabulate]. lia.
Qed.

(** ** Examples *)

Lemma find_coeff_fixed_damping_witness :
  length (pad_observation [5%float] 1) = nrows A_one /\
  find_coeff A_one L_one [5%float] (Fixed 0%float)
  = damped_solution A_one L_one (pad_observation [5%float] 1) 0%float.
Proof.
  exact (find_coeff_fixed_damping A_one L_one [5%float] 0%float 1 1%float
           eq_refl eq_refl).
Defined.

Lemma coefficient_matrix_blocks_witness :
  exists A B : matrix float,
    basis x_two x_two [1%float; 1%float] None = Ok B /\
    coefficient_matrix x_two [1%float; 1%float] 0 = Ok A /\
    nrows A = 2 + 1 /\ ncols A = 2 + 1 /\
    (forall i j, i < 2 -> j < 2 -> mget A i j = mget B i j) /\
    (forall i j, i < 2 -> j < 1 ->
       mget A i (2 + j) = mget (mvmonos x_two [[0]] None) i j) /\
    (forall i j, i < 1 -> j < 2 ->
       mget A (2 + i) j = mget (transpose (mvmonos x_two [[0]] None)) i j) /\
    (forall i j, i < 1 -> j < 1 -> mget A (2 + i) (2 + j) = 0%float).
Proof.
  exact (coefficient_matrix_blocks x_two [1%float; 1%float] 0 eq_refl).
Defined.

Lemma laplacian_matrix_is_sum_witness :
  exists (R : nat -> matrix float) (L : matrix float),
    (forall i, i < 2 ->
       let diff := Some (second_derivative_index 2 i) in
       regularization_matrix x_tri [1%float; 1%float; 1%float] 1 diff
       = Ok (R i) /\
       nrows (R i) = 3 /\ ncols (R i) = 3 + 3 /\
       (forall r c, r < 3 -> c < 3 ->
          mget (R i) r c
          = phi diff (row x_tri r) (row x_tri c)
              (nth c [1%float; 1%float; 1%float] 0%float)) /\
       (forall r c, r < 3 -> c < 3 ->
          mget (R i) r (3 + c)
          = monomial diff (row x_tri r) (nth c [[0; 0]; [0; 1]; [1; 0]] []))) /\
    laplacian_diff_op 2 = [(1%float, [2; 0]); (1%float, [0; 2])] /\
    laplacian_matrix x_tri [1%float; 1%float; 1%float] 1 = Ok (SumArr L) /\
    nrows L = 3 /\ ncols L = 3 + 3 /\
    forall r c, r < 3 -> c < 3 + 3 ->
      mget L r c
      = fsum (map (fun i => fmul 1%float (mget (R i) r c)) (seq 0 2)).
Proof.
  exact (laplacian_matrix_is_sum x_tri [1%float; 1%float; 1%float] 1 eq_refl
           (le_S 1 1 (le_n 1))).
Defined.

Lemma gcv_objective_and_damping_witness :
  score_exact_at A_gcv L_gcv 0%float /\
  predictive_error A_gcv (pad_observation [6%float] 1) (gram A_gcv)
    (gram L_gcv) 2 0%float
  = GCV_score A_gcv L_gcv (pad_observation [6%float] 1) 0%float /\
  GCV_score A_gcv L_gcv (pad_observation [6%float] 1) 0%float = Ok 72%float /\
  find_coeff A_gcv L_gcv [6%float] GCV
  = (d <- optimize_fmin
            (predictive_error A_gcv (pad_observation [6%float] 1) (gram A_gcv)
               (gram L_gcv) 2) 0%float ;;
     damped_solution A_gcv L_gcv (pad_observation [6%float] 1)
       (fpow 10%float d)) /\
  find_coeff A_gcv L_gcv [6%float] GCV = Ok [1.5%float; 0%float].
Proof.
  assert (Hex : score_exact_at A_gcv L_gcv 0%float).
  { split; [reflexivity|]. intros G X HG HX.
    vm_compute in HG. injection HG as <-.
    vm_compute in HX. injection HX as <-.
    vm_compute. reflexivity. }
  assert (Hc : linalg_cond (gram A_gcv) = Ok 4%float) by reflexivity.
  destruct (gcv_objective_and_damping A_gcv L_gcv [6%float] 1 4%float
              diag_inv_keeps_shape eq_refl Hc) as [Hobj Hsol].
  split; [exact Hex|]. split; [exact (Hobj 0%float Hex)|].
  split; [reflexivity|]. split; [exact Hsol | reflexivity].
Defined.

Lemma chunk_invariance_witness :
  call_with 2 5 itp_two q_line None = evaluate_at_once itp_two q_line None /\
  call_with 2 5 itp_two q_line None = RBFInterpolant_call 5 itp_two q_line None.
Proof.
  exact (chunk_invariance itp_two q_line None 2 5
           (conj eq_refl eq_refl) eq_refl (le_S 1 1 (le_n 1)) (le_n 5)).
Defined.

Lemma hull_gate_witness :
  (exists mn mx : float,
     np_min x_two = Ok mn /\ np_max x_two = Ok mx /\
     RBFInterpolant_call 5 itp_two q_line None
     = Ok (map (fun i =>
                  if fle mn (mget q_line i 0) && fle (mget q_line i 0) mx
                  then interpolate_point itp_two None (row q_line i) else nan)
               (seq 0 5))) /\
  RBFInterpolant_call 3 itp_tri q_plane None
  = Ok (map (fun i =>
               if (0 <=? nth i [0; -1; 0] (-1))%Z
               then interpolate_point itp_tri None (row q_plane i) else nan)
            (seq 0 3)).
Proof.
  split.
  - exact (proj1 (hull_gate itp_two q_line None 5
                    (conj eq_refl eq_refl) eq_refl eq_refl (le_n 5))
             eq_refl (le_S 1 1 (le_n 1))).
  - exact (proj2 (hull_gate itp_tri q_plane None 3
                    (conj eq_refl eq_refl) eq_refl eq_refl (le_n 3))
             (le_n 2) [0; -1; 0]%Z eq_refl eq_refl).
Defined.

Lemma fit_system_weights_witness :
  exists (A0 A : matrix float) (L : pysum float),
    coefficient_matrix x_two (ones1 2) 0 = Ok A0 /\
    laplacian_matrix x_two (ones1 2) 0 = Ok L /\
    fst (fit_system x_two (NdArray 7) (Some (PyList [2%float; 3%float])) None 0
           {[7 := [5%float; 6%float]]})
    = Ok (System A L (zip_with fmul [5%float; 6%float] [2%float; 3%float])
            (ones1 2)) /\
    nrows A = 2 + 1 /\ ncols A = 2 + 1 /\
    (forall i j, i < 2 -> j < 2 + 1 ->
       mget A i j = fmul (mget A0 i j) (nth i [2%float; 3%float] 0%float)) /\
    (forall i j, 2 <= i -> i < 2 + 1 -> j < 2 + 1 -> mget A i j = mget A0 i j).
Proof.
  exact (fit_system_weights x_two (NdArray 7) (PyList [2%float; 3%float]) None 0
           {[7 := [5%float; 6%float]]} [5%float; 6%float] [2%float; 3%float]
           eq_refl eq_refl eq_refl eq_refl eq_refl).
Defined.

Lemma gcv_score_unguarded_witness :
  (forall (d : float) (Xi : matrix float),
     (X <- ew2 fadd (gram A_one)
             (smul (fpow (fpow 10%float d) 2%float) (gram L_one)) ;;
      linalg_inv X) = Ok Xi ->
     exists (G : matrix float) (coeff predicted residual : list float)
            (products : matrix float),
       dot Xi (transpose A_one) = Ok G /\
       dotv G (pad_observation [5%float] 1) = Ok coeff /\
       dotv A_one coeff = Ok predicted /\
       vew2 fsub predicted (pad_observation [5%float] 1) = Ok residual /\
       ew2 fmul A_one (transpose G) = Ok products /\
       predictive_error A_one (pad_observation [5%float] 1) (gram A_one)
         (gram L_one) 2 d
       = Ok (fdiv (fmul 2%float (norm2 residual))
                  (fpow (fsub 2%float (msum products)) 2%float))) /\
  find_coeff A_one L_one [5%float] GCV
  = damped_solution A_one L_one (pad_observation [5%float] 1)
      (fpow 10%float 0%float).
Proof.
  exact (gcv_score_unguarded A_one L_one [5%float] 1 1%float 0%float
           diag_inv_keeps_shape eq_refl eq_refl eq_refl eq_refl eq_refl).
Defined.

Lemma init_length_mismatch_witness :
  fst (RBFInterpolant_init x_two (NdArray 7) None None 0 true nan
         (Fixed 0%float) {[7 := [5%float; 6%float; 7%float]]})
  = Raise ValueError.
Proof.
  exact (init_length_mismatch x_two 7 None None 0 true nan (Fixed 0%float)
           {[7 := [5%float; 6%float; 7%float]]}
           [5%float; 6%float; 7%float] (ones1 2)
           eq_refl eq_refl eq_refl
           (or_intror (or_introl (conj (fun E => Nat.neq_succ_diag_l 2 E)
                                       (fun E => Nat.neq_succ_diag_l 1 E))))).
Defined.

Lemma init_scales_value_in_place_witness :
  snd (RBFInterpolant_init x_one (NdArray 7) (Some (PyList [2%float])) None 0
         true nan (Fixed 0%float) {[7 := [5%float]]})
  = <[7 := zip_with fmul [5%float] [2%float]]> {[7 := [5%float]]} /\
  forall l : list float,
    snd (RBFInterpolant_init x_one (PyList l) (Some (PyList [2%float])) None 0
           true nan (Fixed 0%float) {[7 := [5%float]]})
    = {[7 := [5%float]]}.
Proof.
  exact (init_scales_value_in_place x_one 7 (PyList [2%float]) None 0 true nan
           (Fixed 0%float) {[7 := [5%float]]} [5%float] [2%float]
           eq_refl eq_refl eq_refl eq_refl eq_refl).
Defined.

(** The values of the examples, computed. *)
Lemma examples_computed :
  find_coeff A_one L_one [5%float] (Fixed 0%float) = Ok [0%float; 5%float] /\
  call_with 2 5 itp_two q_line None
  = Ok [3.375%float; nan; 4%float; nan; 5%float] /\
  call_with 1 5 itp_two q_line None = call_with 5 5 itp_two q_line None /\
  RBFInterpolant_call 3 itp_tri q_plane None = Ok [62%float; nan; 132%float] /\
  RBFInterpolant_init x_one (NdArray 7) (Some (PyList [2%float])) None 0
    true nan (Fixed 0%float) {[7 := [5%float]]}
  = (Ok (Interpolant x_one [0%float; 5%float] 0 [1%float] true nan),
     {[7 := [10%float]]}) /\
  (itp <- fst (RBFInterpolant_init x_one (PyList [5%float]) None None 0
                 false nan (Fixed 0%float) ∅) ;;
   RBFInterpolant_call 5 itp q_line None)
  = Ok [nan; nan; nan; nan; 5%float] /\
  laplacian_matrix x_tri [1%float; 1%float; 1%float] 1
  = Ok (SumArr (of_rows
          [[0%float; 24%float; 0%float; 0%float; 0%float; 0%float];
           [24%float; 0%float; 24%float; 0%float; 0%float; 0%float];
           [0%float; 24%float; 0%float; 0%float; 0%float; 0%float]])) /\
  predictive_error A_gcv [6%float; 0%float] (gram A_gcv) (gram L_gcv) 2 0%float
  = Ok 72%float /\
  find_coeff A_gcv L_gcv [6%float] GCV = Ok [1.5%float; 0%float] /\
  find_coeff A_gcv L_gcv [6%float] (Fixed 1%float) = Ok [1.5%float; 0%float] /\
  call_with 2 5 (Interpolant x_two [7%float] 0 [1%float; 1%float] true nan)
    q_line None
  = Ok [8.75%float; 70%float; 14%float; 70%float; 14%float] /\
  call_with 2 5
    (Interpolant x_two [7%float; 1%float] 0 [1%float; 1%float] true nan)
    q_line None
  = Raise ValueError.
Proof. repeat split; vm_compute; reflexivity. Qed.

(** Why the condition of C4 is on the data: in binary64 the two orders of
    summation can round differently.  For [A_round] the score as computed
    and the score of the formula, evaluated in its own order, differ in
    their last digits ([14.399999999999988] and [14.400000000000027]). *)
Lemma gcv_rounding_example :
  predictive_error A_round (pad_observation [6%float] 1) (gram A_round)
    (gram L_round) 2 0%float
  <> GCV_score A_round L_round (pad_observation [6%float] 1) 0%float /\
  ~ score_exact_at A_round L_round 0%float.
Proof.
  set (computed := predictive_error A_round (pad_observation [6%float] 1)
                     (gram A_round) (gram L_round) 2 0%float).
  set (formula := GCV_score A_round L_round (pad_observation [6%float] 1)
                    0%float).
  assert (Hne : computed <> formula).
  { intros E.
    assert (Ht : match computed, formula with
                 | Ok a, Ok b => PrimFloat.ltb a b
                 | _, _ => false
                 end = true) by (vm_compute; reflexivity).
    rewrite E in Ht. vm_compute in Ht. discriminate. }
  split; [exact Hne|]. intros Hex. apply Hne.
  apply (gcv_objective_eq A_round L_round); [apply diag_inv_keeps_shape | exact Hex].
Qed.

(** C8, counterexample: one training point, order 0, GCV.  At the start
    value [d = 0] the trace of [A·A_ginv] equals [M = 2], the score is
    [0/0], not a number, and yet [find_coeff] and the constructor return
    coefficients. *)
Lemma gcv_nan_score_accepted :
  (G <- A_ginv A_one L_one 0%float ;; AG <- dot A_one G ;; Ok (trace AG))
  = Ok 2%float /\
  predictive_error A_one [5%float; 0%float] (gram A_one) (gram L_one) 2 0%float
  = Ok nan /\
  find_coeff A_one L_one [5%float] GCV = Ok [0%float; 5%float] /\
  fst (RBFInterpolant_init x_one (PyList [5%float]) None None 0 true nan GCV ∅)
  = Ok (Interpolant x_one [0%float; 5%float] 0 [1%float] true nan).
Proof. repeat split; vm_compute; reflexivity. Qed.

(** C9, counterexample: one training point and two observations (the value
    vector is longer than [N = 1]): the constructor returns an interpolant.
    Two training points and a single weight: the weight is broadcast to both
    rows and both observations. *)
Lemma init_accepts_mismatched_lengths :
  nrows x_one = 1 /\ length [5%float; 6%float] = 2 /\
  fst (RBFInterpolant_init x_one (NdArray 7) None None 0 true nan
         (Fixed 0%float) {[7 := [5%float; 6%float]]})
  = Ok (Interpolant x_one [6%float; 5%float] 0 [1%float] true nan) /\
  nrows x_two = 2 /\ length [2%float] = 1 /\
  fst (fit_system x_two (PyList [5%float; 6%float]) (Some (PyList [2%float]))
         None 0 ∅)
  = Ok (System
          (of_rows [[0%float; 2%float; 2%float]; [2%float; 0%float; 2%float];
                    [1%float; 1%float; 0%float]])
          (SumArr (of_rows [[0%float; 6%float; 0%float];
                            [6%float; 0%float; 0%float]]))
          [10%float; 12%float] [1%float; 1%float]).
Proof. repeat split; vm_compute; reflexivity. Qed.

(** * Further properties of [rbf/interpolant.py] *)

Section MatrixLayout.
Context {F : Type} `{Collaborators F}.

(** The entries of the augmented matrix, in closed form. *)
Lemma coefficient_matrix_entries (x : matrix F) (eps : list F) (order : nat) :
  length eps = nrows x ->
  let N := nrows x in
  let powers := monomial_powers order (ncols x) in
  exists A : matrix F,
    coefficient_matrix x eps order = Ok A /\
    nrows A = N + length powers /\ ncols A = N + length powers /\
    forall i j, i < N + length powers -> j < N + length powers ->
      mget A i j
      = if i <? N
        then if j <? N
             then phi None (row x i) (row x j) (nth j eps (of_int 0))
             else monomial None (row x i) (nth (j - N) powers [])
        else if j <? N
             then monomial None (row x j) (nth (i - N) powers [])
             else of_int 0.
Proof.
  intros He N powers.
  unfold coefficient_matrix. fold N powers.
  rewrite (basis_ok x x eps None He). fold N. cbn [bind].
  rewrite set_block_exact by (cbn [nrows ncols zeros tabulate]; lia).
  cbn [bind nrows ncols zeros tabulate].
  rewrite set_block_exact
    by (cbn [nrows ncols transpose mvmonos tabulate]; lia).
  cbn [bind nrows ncols tabulate].
  rewrite set_block_exact by (cbn [nrows ncols mvmonos tabulate]; lia).
  cbn [bind nrows ncols tabulate].
  eexists. split; [reflexivity|]. cbn [nrows ncols tabulate].
  split; [reflexivity|]. split; [reflexivity|].
  intros i j Hi Hj.
  repeat (rewrite (mget_tabulate (N + length powers) (N + length powers)) by lia;
          decide_bounds).
  all: rewrite ?Nat.sub_0_r.
  - unfold mvmonos. now rewrite mget_tabulate by (fold N; lia).
  - unfold zeros. now rewrite mget_tabulate by lia.
  - now rewrite mget_tabulate by lia.
  - rewrite mget_transpose by (cbn [nrows ncols mvmonos tabulate]; fold N; lia).
    unfold mvmonos. now rewrite mget_tabulate by (fold N; lia).
Qed.

(** The entries of the interpolation matrix, in closed form. *)
Lemma interpolation_matrix_entries (xitp x : matrix F) (diff : option (list nat))
  (eps : list F) (order : nat) :
  length eps = nrows x ->
  let N := nrows x in
  let powers := monomial_powers order (ncols xitp) in
  exists A : matrix F,
    interpolation_matrix xitp x diff eps order = Ok A /\
    nrows A = nrows xitp /\ ncols A = N + length powers /\
    forall i j, i < nrows xitp -> j < N + length powers ->
      mget A i j
      = if j <? N
        then phi diff (row xitp i) (row x j) (nth j eps (of_int 0))
        else monomial diff (row xitp i) (nth (j - N) powers []).
Proof.
  intros He N powers.
  unfold interpolation_matrix. fold N powers.
  rewrite (basis_ok xitp x eps diff He). fold N. cbn [bind].
  rewrite set_block_exact by (cbn [nrows ncols zeros tabulate]; lia).
  cbn [bind nrows ncols zeros tabulate].
  rewrite set_block_exact by (cbn [nrows ncols mvmonos tabulate]; lia).
  cbn [bind nrows ncols tabulate].
  eexists. split; [reflexivity|]. cbn [nrows ncols tabulate].
  split; [reflexivity|]. split; [reflexivity|].
  intros i j Hi Hj.
  repeat (rewrite (mget_tabulate (nrows xitp) (N + length powers)) by lia;
          decide_bounds).
  - unfold mvmonos. rewrite mget_tabulate by lia. now rewrite Nat.sub_0_r.
  - rewrite mget_tabulate by lia. now rewrite !Nat.sub_0_r.
Qed.

(** X1: the augmented matrix is symmetric as soon as the basis is symmetric on
    the training points: the polynomial block and its transpose mirror each
    other and the corner is zero. *)
Theorem coefficient_matrix_symmetric (x : matrix F) (eps : list F) (order : nat) :
  let N := nrows x in
  let P := length (monomial_powers order (ncols x)) in
  length eps = N ->
  (forall i j, i < N -> j < N ->
     phi None (row x i) (row x j) (nth j eps (of_int 0))
     = phi None (row x j) (row x i) (nth i eps (of_int 0))) ->
  exists A : matrix F,
    coefficient_matrix x eps order = Ok A /\
    forall i j, i < N + P -> j < N + P -> mget A i j = mget A j i.
Proof.
  intros N P He Hsym.
  destruct (coefficient_matrix_entries x eps order He) as (A & HA & _ & _ & Hent).
  exists A. split; [exact HA|].
  intros i j Hi Hj. rewrite (Hent i j Hi Hj), (Hent j i Hj Hi). fold N.
  destruct (Nat.ltb_spec i N), (Nat.ltb_spec j N); auto.
Qed.

(** X2: [interpolation_matrix] returns one row per query point and [N + P]
    columns: the basis values against the [N] training points, each with the
    shape parameter of its center, then the [P] monomials, both under the
    requested derivative. *)
Theorem interpolation_matrix_layout (xitp x : matrix F)
  (diff : option (list nat)) (eps : list F) (order : nat) :
  let N := nrows x in
  let powers := monomial_powers order (ncols xitp) in
  length eps = N ->
  exists A : matrix F,
    interpolation_matrix xitp x diff eps order = Ok A /\
    nrows A = nrows xitp /\ ncols A = N + length powers /\
    (forall i j, i < nrows xitp -> j < N ->
       mget A i j = phi diff (row xitp i) (row x j) (nth j eps (of_int 0))) /\
    (forall i j, i < nrows xitp -> j < length powers ->
       mget A i (N + j) = monomial diff (row xitp i) (nth j powers [])).
Proof.
  intros N powers He.
  destruct (interpolation_matrix_entries xitp x diff eps order He)
    as (A & HA & Hr & Hc & Hent).
  exists A. split; [exact HA|]. split; [exact Hr|]. split; [exact Hc|].
  split; intros i j Hi Hj.
  - rewrite Hent by (fold N; lia). fold N.
    destruct (Nat.ltb_spec j N); [reflexivity | lia].
  - rewrite Hent by (fold N powers; lia). fold N powers.
    destruct (Nat.ltb_spec (N + j) N); [lia|].
    do 2 f_equal. lia.
Qed.

End MatrixLayout.

Section SolverSizes.
Context {F : Type} `{Collaborators F}.

(** X3: sizes in [find_coeff]: more observations than rows of [A] are refused
    ([np.zeros] of a negative length); a regularization matrix whose column
    count neither equals that of [A] nor broadcasts is refused when the two
    Gram matrices are added; and a returned coefficient vector has one entry
    per column of [A]. *)
Theorem find_coeff_sizes (A L : matrix F) (value : list F) :
  (forall dmp, nrows A < length value ->
     find_coeff A L value dmp = Raise ValueError) /\
  (forall d k, length value <= nrows A -> linalg_cond (gram A) = Ok k ->
     ncols L <> ncols A -> ncols L <> 1 -> ncols A <> 1 ->
     find_coeff A L value (Fixed d) = Raise ValueError) /\
  (forall dmp c, inv_keeps_shape -> ncols L = ncols A ->
     find_coeff A L value dmp = Ok c -> length c = ncols A).
Proof.
  split; [|split].
  - intros dmp Hlt. unfold find_coeff.
    apply Nat.ltb_lt in Hlt. now rewrite Hlt.
  - intros d k Hle Hc HL HL1 HA1.
    rewrite (find_coeff_steps A L value (Fixed d) (nrows A - length value) k)
      by (assumption || lia).
    cbn [bind]. unfold damped_solution, ew2.
    cbn [nrows ncols gram smul tabulate]. unfold bdim.
    apply Nat.eqb_neq in HL1, HA1.
    assert (HAL : ncols A <> ncols L) by congruence.
    apply Nat.eqb_neq in HAL. now rewrite HAL, HA1, HL1.
  - intros dmp c Hinv HL Hc. now apply (find_coeff_length A L value dmp c).
Qed.

End SolverSizes.

Section InitMore.
Context {F : Type} `{Collaborators F}.

Lemma imul_value_frame (value : arg1d F) (ws : list F) (h : gmap loc (list F))
  (r' : loc) :
  value <> NdArray r' -> snd (imul_value value ws h) !! r' = h !! r'.
Proof.
  intros Hne. destruct value as [l|r]; cbn [imul_value]; [reflexivity|].
  destruct (h !! r); [|reflexivity].
  destruct (vew2_inplace fmul l ws); cbn [snd]; try reflexivity.
  apply lookup_insert_ne. congruence.
Qed.

(** X4: the constructor writes to no array but [value]: every other reference
    of the store, the weight array included, holds afterwards what it held
    before, whether the construction succeeds or fails. *)
Theorem init_frame (x : matrix F) (value : arg1d F) (weight : option (arg1d F))
  (eps : option (list F)) (order : nat) (extrapolate : bool) (fill : F)
  (penalty : damping F) (h : gmap loc (list F)) (r' : loc) :
  value <> NdArray r' ->
  snd (RBFInterpolant_init x value weight eps order extrapolate fill penalty h)
    !! r' = h !! r'.
Proof.
  intros Hne. rewrite init_store. unfold fit_system.
  destruct (match weight with None => _ | Some w => _ end) as [ws| |];
    try reflexivity.
  destruct (A <- coefficient_matrix _ _ _ ;; scale_rows A (nrows x) ws);
    try reflexivity.
  pose proof (imul_value_frame value ws h r' Hne) as Hf.
  now destruct (imul_value value ws h).
Qed.

(** X5: a refused weight vector leaves the caller's value array as it was; too
    many observations are refused only by [find_coeff], after the array has
    been multiplied in place: the construction fails and the caller's array is
    changed. *)
Theorem init_failure_store (x : matrix F) (r : loc) (weight : option (arg1d F))
  (eps : option (list F)) (order : nat) (extrapolate : bool) (fill : F)
  (penalty : damping F) (h : gmap loc (list F)) (vals ws : list F) :
  let N := nrows x in
  let P := length (monomial_powers order (ncols x)) in
  let eps' := match eps with None => ones1 N | Some e => e end in
  let init := RBFInterpolant_init x (NdArray r) weight eps order extrapolate
                fill penalty h in
  length eps' = N ->
  h !! r = Some vals ->
  match weight with None => Ok (ones1 N) | Some w => asarray h w end = Ok ws ->
  (length ws <> N -> length ws <> 1 -> init = (Raise ValueError, h)) /\
  (length ws = N \/ length ws = 1 ->
   length ws = length vals \/ length ws = 1 ->
   N + P < length vals ->
   init = (Raise ValueError,
           <[r := map (fun i => fmul (nth i vals (of_int 0)) (vget ws i))
                    (seq 0 (length vals))]> h)).
Proof.
  intros N P eps' init He Hr Hw.
  destruct (coefficient_matrix_ok x eps' order He) as (A0 & HA0 & HAr & HAc).
  destruct (laplacian_matrix_ok x eps' order He) as (L & HL).
  fold N P in HAr, HAc.
  assert (Hinit : init = (fst init, snd init)) by now destruct init.
  subst init. rewrite Hinit, init_result, init_store. clear Hinit.
  unfold fit_system. fold N eps'. rewrite Hw, HA0. cbn [bind].
  split.
  - intros HWN HW1. rewrite scale_rows_mismatch by lia. reflexivity.
  - intros HWN HWK HK.
    destruct (scale_rows_ok A0 N ws) as (A & HA & HAr' & HAc');
      [lia | assumption | rewrite HA].
    cbn [imul_value]. rewrite Hr. unfold vew2_inplace.
    replace ((length ws =? length vals) || (length ws =? 1)) with true
      by (symmetry; apply orb_true_iff; rewrite !Nat.eqb_eq; exact HWK).
    cbn [fst snd bind]. rewrite HL. cbn [bind sys_L sys_A sys_value].
    f_equal.
    assert (HK' : (nrows A <? length (map (fun i =>
                     fmul (nth i vals (of_int 0)) (vget ws i))
                     (seq 0 (length vals)))) = true).
    { apply Nat.ltb_lt. rewrite length_map, length_seq. lia. }
    destruct L; unfold find_coeff, find_coeff_int_L; now rewrite HK'.
Qed.

Lemma fit_system_eps (x : matrix F) (value : arg1d F) (weight : option (arg1d F))
  (eps : option (list F)) (order : nat) (h : gmap loc (list F)) (s : system F) :
  fst (fit_system x value weight eps order h) = Ok s ->
  sys_eps s = match eps with None => ones1 (nrows x) | Some e => e end.
Proof.
  unfold fit_system.
  destruct (match weight with None => _ | Some w => _ end) as [ws| |];
    try discriminate.
  destruct (A <- coefficient_matrix _ _ _ ;; scale_rows A (nrows x) ws);
    try discriminate.
  destruct (imul_value value ws h) as [v h']. cbn [fst].
  destruct v; cbn [bind]; try discriminate.
  destruct (laplacian_matrix _ _ _); cbn [bind]; try discriminate.
  intros E. now inversion E.
Qed.

(** X6: what a successful construction stores: the training points, the order,
    the extrapolation policy and fill value as given, one shape parameter per
    training point (ones when [eps] is omitted) and one coefficient per column
    of the system, so that the object can be evaluated. *)
Theorem init_stores_fit (x : matrix F) (value : arg1d F)
  (weight : option (arg1d F)) (eps : option (list F)) (order : nat)
  (extrapolate : bool) (fill : F) (penalty : damping F)
  (h : gmap loc (list F)) (itp : interpolant F) :
  inv_keeps_shape ->
  fst (RBFInterpolant_init x value weight eps order extrapolate fill penalty h)
  = Ok itp ->
  itp_x itp = x /\ itp_order itp = order /\
  itp_extrapolate itp = extrapolate /\ itp_fill itp = fill /\
  itp_eps itp = match eps with None => ones1 (nrows x) | Some e => e end /\
  length (itp_eps itp) = nrows x /\
  length (itp_coeff itp)
  = nrows x + length (monomial_powers order (ncols x)).
Proof.
  intros Hinv Hinit.
  destruct (init_fitted x value weight eps order extrapolate fill penalty h itp
              Hinv Hinit) as ([He Hc] & Hx & Ho).
  rewrite Hx, Ho in *. rewrite init_result in Hinit.
  destruct (fst (fit_system x value weight eps order h)) as [s| |] eqn:Hs;
    cbn [bind] in Hinit; try discriminate.
  apply fit_system_eps in Hs.
  destruct (match sys_L s with SumArr L => _ | SumInt0 => _ end);
    cbn [bind] in Hinit; try discriminate.
  inversion Hinit. subst itp. cbn in *. auto 10.
Qed.

End InitMore.

Section CallMore.
Context {F : Type} `{Collaborators F}.

Lemma fold_insert_length (l : list (nat * F)) :
  forall out : list F,
  length (fold_left (fun (o : list F) (iv : nat * F) => <[fst iv := snd iv]> o)
            l out)
  = length out.
Proof.
  induction l as [|iv l IH]; intros out; [reflexivity|].
  cbn [fold_left]. rewrite IH. apply length_insert.
Qed.

Lemma assign_at_length (out out' : list F) (idx : list nat) (vals : list F) :
  assign_at out idx vals = Ok out' -> length out' = length out.
Proof.
  unfold assign_at. destruct (negb _); [discriminate|].
  destruct (_ || _); [|discriminate].
  intros E. inversion E. apply fold_insert_length.
Qed.

Lemma call_loop_length (itp : interpolant F) (xitp : matrix F)
  (diff : option (list nat)) (chunk : nat) :
  forall (fuel n : nat) (out out' : list F),
  call_loop fuel chunk itp xitp diff n out = Ok out' -> length out' = length out.
Proof.
  induction fuel as [|fuel IH]; intros n out out'; cbn [call_loop];
    destruct (n <? nrows xitp); try discriminate;
    try (intros E; now inversion E).
  destruct (interpolation_matrix _ _ _ _ _) as [A| |]; cbn [bind];
    try discriminate.
  destruct (einsum_ij_j A (itp_coeff itp)) as [vals| |]; cbn [bind];
    try discriminate.
  destruct (assign_at out _ vals) as [o| |] eqn:Ha; cbn [bind]; try discriminate.
  intros E. rewrite (IH _ _ _ E). now apply assign_at_length in Ha.
Qed.

Lemma assign_at_ok (out : list F) (idx : list nat) (vals : list F) :
  (forall i, In i idx -> i < length out) -> length vals = length idx ->
  exists out' : list F, assign_at out idx vals = Ok out'.
Proof.
  intros Hidx Hl. unfold assign_at.
  replace (forallb _ idx) with true.
  2:{ symmetry. apply forallb_forall. intros i Hi. apply Nat.ltb_lt. auto. }
  cbn [negb]. rewrite Hl, Nat.eqb_refl. cbn [orb]. eauto.
Qed.

(** The loop returns whenever every step can: one shape parameter per
    training point, and a coefficient vector that [einsum] accepts (one
    entry per column of the interpolation matrix, or a single entry, or any
    number against a single column). *)
Lemma call_loop_returns (itp : interpolant F) (xitp : matrix F)
  (diff : option (list nat)) (chunk J : nat) :
  length (itp_eps itp) = nrows (itp_x itp) ->
  bdim (nrows (itp_x itp)
        + length (monomial_powers (itp_order itp) (ncols xitp)))
       (length (itp_coeff itp)) = Some J ->
  1 <= chunk ->
  forall (fuel n : nat) (out : list F),
  nrows xitp - n <= fuel -> length out = nrows xitp ->
  exists out' : list F, call_loop fuel chunk itp xitp diff n out = Ok out'.
Proof.
  intros He HJ Hc.
  induction fuel as [|fuel IH]; intros n out Hfuel Hout; cbn [call_loop];
    destruct (Nat.ltb_spec n (nrows xitp)) as [Hn|Hn]; try lia; eauto.
  set (k := Nat.min (n + chunk) (nrows xitp) - n).
  destruct (interpolation_matrix_entries (take_rows xitp (seq n k)) (itp_x itp)
              diff (itp_eps itp) (itp_order itp) He)
    as (A & HA & HAr & HAc & _).
  cbn [nrows ncols take_rows tabulate] in HA, HAr, HAc.
  rewrite length_seq in HAr.
  rewrite HA. cbn [bind]. unfold einsum_ij_j. rewrite HAc, HJ. cbn [bind].
  match goal with
  | |- context [assign_at out (seq n k) ?v] =>
      destruct (assign_at_ok out (seq n k) v) as (o & Ho)
  end.
  - intros i Hi. apply in_seq in Hi. lia.
  - now rewrite length_map, !length_seq.
  - rewrite Ho. cbn [bind]. apply IH; [lia|].
    apply assign_at_length in Ho. congruence.
Qed.

(** X7: the output of [__call__] is aligned with the query points: whatever
    the interpolant, the derivative and the chunking, a returned array has one
    entry per query point; for no query point at all the extrapolating
    interpolant returns the empty array without building any matrix; and an
    extrapolating interpolant with one shape parameter per training point
    does return at query points of its dimension, also when it is not
    fitted, as soon as [einsum] accepts its coefficient vector (a single
    coefficient is broadcast). *)
Theorem call_output_aligned (itp : interpolant F) (xitp : matrix F)
  (diff : option (list nat)) (chunk fuel : nat) :
  (forall out, call_with chunk fuel itp xitp diff = Ok out ->
     length out = nrows xitp) /\
  (nrows xitp = 0 -> itp_extrapolate itp = true ->
   call_with chunk fuel itp xitp diff = Ok []) /\
  (forall J,
     length (itp_eps itp) = nrows (itp_x itp) ->
     ncols xitp = ncols (itp_x itp) ->
     bdim (nrows (itp_x itp)
           + length (monomial_powers (itp_order itp) (ncols xitp)))
          (length (itp_coeff itp)) = Some J ->
     itp_extrapolate itp = true -> 1 <= chunk -> nrows xitp <= fuel ->
     exists out, call_with chunk fuel itp xitp diff = Ok out /\
                 length out = nrows xitp).
Proof.
  assert (Hlen : forall out, call_with chunk fuel itp xitp diff = Ok out ->
                   length out = nrows xitp).
  { intros out. unfold call_with.
    destruct (call_loop _ _ _ _ _ _ _) as [o| |] eqn:Hl; cbn [bind];
      try discriminate.
    apply call_loop_length in Hl. unfold zeros1 in Hl.
    rewrite repeat_length in Hl.
    destruct (negb (itp_extrapolate itp)).
    + destruct (in_hull _ _) as [mask| |]; cbn [bind]; try discriminate.
      unfold fill_outside. destruct (_ =? _); [|discriminate].
      intros E. inversion E. now rewrite length_map, length_seq.
    + intros E. inversion E. subst o. exact Hl. }
  split; [exact Hlen|]. split.
  - intros Hempty Hex. unfold call_with. rewrite Hex.
    destruct fuel; cbn [call_loop]; rewrite Hempty; reflexivity.
  - intros J He _ HJ Hex Hc Hfuel.
    destruct (call_loop_returns itp xitp diff chunk J He HJ Hc fuel 0
                (zeros1 (nrows xitp))) as (o & Ho).
    + lia.
    + unfold zeros1. apply repeat_length.
    + assert (Hcall : call_with chunk fuel itp xitp diff = Ok o).
      { unfold call_with. rewrite Ho, Hex. reflexivity. }
      exists o. split; [exact Hcall | now apply Hlen].
Qed.

Lemma call_without_hull (itp : interpolant F) (xitp : matrix F)
  (diff : option (list nat)) (fuel : nat) :
  fitted itp -> itp_extrapolate itp = true ->
  ncols xitp = ncols (itp_x itp) -> nrows xitp <= fuel ->
  RBFInterpolant_call fuel itp xitp diff
  = Ok (map (fun i => interpolate_point itp diff (row xitp i))
            (seq 0 (nrows xitp))).
Proof.
  intros Hfit Hex HD Hfuel. unfold RBFInterpolant_call.
  rewrite call_with_at_once by (assumption || unfold max_chunk; lia).
  unfold evaluate_at_once.
  rewrite interpolated_values_rows by assumption.
  cbn [bind]. now rewrite Hex.
Qed.

(** X8: with [extrapolate=True] the hull is never consulted: every query
    point, inside or outside, gets its interpolated value, also where the
    triangulation would fail. *)
Theorem call_extrapolating (itp : interpolant F) (xitp : matrix F)
  (diff : option (list nat)) (fuel : nat) :
  fitted itp -> itp_extrapolate itp = true ->
  ncols xitp = ncols (itp_x itp) -> nrows xitp <= fuel ->
  RBFInterpolant_call fuel itp xitp diff
  = Ok (map (fun i => interpolate_point itp diff (row xitp i))
            (seq 0 (nrows xitp))).
Proof.
  intros Hfit Hex HD Hfuel. now apply call_without_hull.
Qed.

Lemma ordered_refl (L : list F) (a : F) :
  ordered_on L -> In a L -> fle a a = true.
Proof.
  intros [_ Hpair] Ha. destruct (Hpair a a Ha Ha) as (Htot & _).
  destruct (fle a a); [reflexivity | now apply Htot].
Qed.

(** The running minimum over values of an ordered list is one of them and
    lies below the start value and below every value met. *)
Lemma fold_minimum_le (L l : list F) :
  ordered_on L -> (forall y, In y l -> In y L) ->
  forall a : F, In a L ->
  In (fold_left fminimum l a) L /\
  fle (fold_left fminimum l a) a = true /\
  forall y, In y l -> fle (fold_left fminimum l a) y = true.
Proof.
  intros Hord. pose proof Hord as [Htrans Hpair].
  induction l as [|b l IH]; intros Hl a Ha; cbn [fold_left].
  - split; [exact Ha|]. split; [now apply (ordered_refl L) | intros y []].
  - assert (Hb : In b L) by (apply Hl; now left).
    destruct (Hpair a b Ha Hb) as (Htot & Hmin & _).
    assert (Hm : In (fminimum a b) L /\
                 fle (fminimum a b) a = true /\ fle (fminimum a b) b = true).
    { rewrite Hmin. destruct (fle a b) eqn:E.
      - split; [exact Ha|]. split; [now apply (ordered_refl L) | exact E].
      - split; [exact Hb|]. split; [now apply Htot | now apply (ordered_refl L)]. }
    destruct Hm as (HmL & Hma & Hmb).
    destruct (IH (fun y Hy => Hl y (or_intror Hy)) (fminimum a b) HmL)
      as (HrL & Hrm & Hry).
    split; [exact HrL|]. split.
    + exact (Htrans _ _ _ HrL HmL Ha Hrm Hma).
    + intros y [<-|Hy]; [exact (Htrans _ _ _ HrL HmL Hb Hrm Hmb) | now apply Hry].
Qed.

Lemma fold_maximum_ge (L l : list F) :
  ordered_on L -> (forall y, In y l -> In y L) ->
  forall a : F, In a L ->
  In (fold_left fmaximum l a) L /\
  fle a (fold_left fmaximum l a) = true /\
  forall y, In y l -> fle y (fold_left fmaximum l a) = true.
Proof.
  intros Hord. pose proof Hord as [Htrans Hpair].
  induction l as [|b l IH]; intros Hl a Ha; cbn [fold_left].
  - split; [exact Ha|]. split; [now apply (ordered_refl L) | intros y []].
  - assert (Hb : In b L) by (apply Hl; now left).
    destruct (Hpair a b Ha Hb) as (Htot & _ & Hmax).
    assert (Hm : In (fmaximum a b) L /\
                 fle a (fmaximum a b) = true /\ fle b (fmaximum a b) = true).
    { rewrite Hmax. destruct (fle a b) eqn:E.
      - split; [exact Hb|]. split; [exact E | now apply (ordered_refl L)].
      - split; [exact Ha|]. split; [now apply (ordered_refl L) | now apply Htot]. }
    destruct Hm as (HmL & Hma & Hmb).
    destruct (IH (fun y Hy => Hl y (or_intror Hy)) (fmaximum a b) HmL)
      as (HrL & Hrm & Hry).
    split; [exact HrL|]. split.
    + exact (Htrans _ _ _ Ha HmL HrL Hma Hrm).
    + intros y [<-|Hy]; [exact (Htrans _ _ _ Hb HmL HrL Hmb Hrm) | now apply Hry].
Qed.

Lemma flatten_column (x : matrix F) :
  ncols x = 1 -> flatten x = map (fun i => mget x i 0) (seq 0 (nrows x)).
Proof.
  intros H1. unfold flatten, row. rewrite H1. cbn [seq map].
  induction (seq 0 (nrows x)) as [|i l IH]; [reflexivity|].
  cbn [map concat app]. now rewrite IH.
Qed.

(** On the line every training point lies in the hull of the training
    points, provided the comparisons order their coordinates (none is a
    nan). *)
Lemma in_hull_training_points (x : matrix F) :
  ncols x = 1 -> 1 <= nrows x -> ordered_on (flatten x) ->
  in_hull x x = Ok (map (fun _ => true) (seq 0 (nrows x))).
Proof.
  intros H1 HN Hord. unfold in_hull, np_min, np_max. rewrite H1.
  cbn [Nat.leb Nat.eqb]. rewrite (flatten_column x H1) in *.
  set (l := map (fun i => mget x i 0) (seq 1 (nrows x - 1))).
  assert (Hcol : map (fun i => mget x i 0) (seq 0 (nrows x)) = mget x 0 0 :: l).
  { subst l. destruct (nrows x) as [|n]; [lia|].
    replace (S n - 1) with n by lia. reflexivity. }
  rewrite Hcol in *. cbn [reduce1 bind]. f_equal.
  apply map_ext_in. intros i Hi. apply in_seq in Hi.
  destruct (fold_minimum_le (mget x 0 0 :: l) l Hord
              (fun y Hy => or_intror Hy) (mget x 0 0) (or_introl eq_refl))
    as (_ & Hm0 & Hml).
  destruct (fold_maximum_ge (mget x 0 0 :: l) l Hord
              (fun y Hy => or_intror Hy) (mget x 0 0) (or_introl eq_refl))
    as (_ & HM0 & HMl).
  destruct i as [|i].
  - now rewrite Hm0, HM0.
  - assert (Hin : In (mget x (S i) 0) l).
    { subst l. apply in_map_iff. exists (S i). split; [reflexivity|].
      apply in_seq. lia. }
    now rewrite (Hml _ Hin), (HMl _ Hin).
Qed.

(** X9: on the line, when the comparisons order the training coordinates
    (none of them is a nan), evaluating a fitted interpolant at its own
    training points never yields the fill value, whatever the extrapolation
    policy: each training point gets its interpolated value. *)
Theorem call_at_training_points (itp : interpolant F)
  (diff : option (list nat)) (fuel : nat) :
  fitted itp -> ncols (itp_x itp) = 1 -> 1 <= nrows (itp_x itp) ->
  ordered_on (flatten (itp_x itp)) ->
  nrows (itp_x itp) <= fuel ->
  RBFInterpolant_call fuel itp (itp_x itp) diff
  = Ok (map (fun i => interpolate_point itp diff (row (itp_x itp) i))
            (seq 0 (nrows (itp_x itp)))).
Proof.
  intros Hfit H1 HN Hord Hfuel. unfold RBFInterpolant_call.
  rewrite call_with_at_once by (assumption || reflexivity || unfold max_chunk; lia).
  unfold evaluate_at_once.
  rewrite interpolated_values_rows by (assumption || reflexivity).
  cbn [bind]. destruct (itp_extrapolate itp); cbn [negb]; [reflexivity|].
  rewrite in_hull_training_points by assumption. cbn [bind].
  rewrite fill_outside_maps. reflexivity.
Qed.

Lemma firstn_map_seq {A : Type} (f : nat -> A) (n m : nat) :
  firstn n (map f (seq 0 (n + m))) = map f (seq 0 n).
Proof.
  rewrite seq_app, map_app, firstn_app, length_map, length_seq, Nat.sub_diag.
  cbn [firstn]. rewrite app_nil_r. apply firstn_all2.
  now rewrite length_map, length_seq.
Qed.

(** X10: fitting and evaluation agree on the layout: at the training points,
    with extrapolation allowed and no derivative, [__call__] returns the first
    [N] entries of the product of the (unweighted) augmented matrix with the
    stored coefficients. *)
Theorem call_applies_system_rows (itp : interpolant F) (A0 : matrix F)
  (v : list F) (fuel : nat) :
  fitted itp -> itp_extrapolate itp = true ->
  nrows (itp_x itp) <= fuel ->
  coefficient_matrix (itp_x itp) (itp_eps itp) (itp_order itp) = Ok A0 ->
  dotv A0 (itp_coeff itp) = Ok v ->
  RBFInterpolant_call fuel itp (itp_x itp) None
  = Ok (firstn (nrows (itp_x itp)) v).
Proof.
  intros Hfit Hex Hfuel HA0 Hv.
  rewrite call_without_hull by (assumption || reflexivity). f_equal.
  destruct Hfit as [He Hc].
  destruct (coefficient_matrix_entries (itp_x itp) (itp_eps itp) (itp_order itp) He)
    as (A & HA & HAr & HAc & Hent).
  rewrite HA0 in HA. inversion HA. subst A. clear HA.
  set (N := nrows (itp_x itp)) in *.
  set (powers := monomial_powers (itp_order itp) (ncols (itp_x itp))) in *.
  unfold dotv in Hv. rewrite HAc, Hc, Nat.eqb_refl in Hv.
  inversion Hv. clear Hv. rewrite HAr.
  rewrite (firstn_map_seq _ N (length powers)).
  apply map_seq_ext. intros i Hi.
  unfold interpolate_point, interpolation_row.
  rewrite length_app, !length_map, length_seq, length_row. fold N powers.
  f_equal. apply map_seq_ext. intros k Hk. f_equal.
  rewrite Hent by lia.
  destruct (Nat.ltb_spec i N) as [_|]; [|lia].
  destruct (Nat.ltb_spec k N) as [Hk'|Hk'].
  - rewrite app_nth1 by (rewrite length_map, length_seq; lia).
    now rewrite nth_map_seq by lia.
  - rewrite app_nth2 by (rewrite length_map, length_seq; lia).
    rewrite length_map, length_seq.
    rewrite (nth_indep _ (of_int 0) (monomial None (row (itp_x itp) i) []))
      by (rewrite length_map; lia).
    now rewrite (map_nth (fun pw => monomial None (row (itp_x itp) i) pw)).
Qed.

End CallMore.

(** * Properties of [rbf/normalize.py] *)

Section BatchSizes.

Lemma batch_sizes_zero : batch_sizes 0 = [].
Proof. reflexivity. Qed.

Lemma batch_sizes_small (R : Z) :
  (0 < R < sample_size0)%Z -> batch_sizes R = [R].
Proof.
  intros HR. unfold batch_sizes.
  rewrite Z.div_small, Z.mod_small by lia. cbn [Z.to_nat repeat app].
  destruct (Z.eqb_spec R 0); [lia | reflexivity].
Qed.

Lemma batch_sizes_step (R : Z) :
  (sample_size0 <= R)%Z ->
  batch_sizes R = sample_size0 :: batch_sizes (R - sample_size0).
Proof.
  intros HR.
  assert (Hc : (0 < sample_size0)%Z) by reflexivity.
  assert (Hd : (R / sample_size0 = (R - sample_size0) / sample_size0 + 1)%Z).
  { rewrite <- (Z.div_add (R - sample_size0) 1 sample_size0) by lia.
    f_equal. lia. }
  assert (Hm : (R mod sample_size0 = (R - sample_size0) mod sample_size0)%Z).
  { rewrite <- (Z.mod_add (R - sample_size0) 1 sample_size0) by lia.
    f_equal. lia. }
  assert (Hq : (0 <= (R - sample_size0) / sample_size0)%Z)
    by (apply Z.div_pos; lia).
  unfold batch_sizes at 1. rewrite Hd, Hm, Z2Nat.inj_add by lia.
  replace (Z.to_nat 1) with 1 by reflexivity.
  rewrite Nat.add_1_r. reflexivity.
Qed.

Lemma batch_sizes_sum (N : Z) :
  (0 <= N)%Z ->
  fold_right Z.add 0%Z (batch_sizes N) = N /\
  Forall (fun b => (0 < b <= sample_size0)%Z) (batch_sizes N).
Proof.
  intros HN. unfold batch_sizes.
  assert (Hc : (0 < sample_size0)%Z) by reflexivity.
  pose proof (Z.div_mod N sample_size0 ltac:(lia)) as Hdm.
  pose proof (Z.mod_pos_bound N sample_size0 Hc) as Hr.
  assert (Hq : (0 <= N / sample_size0)%Z) by (apply Z.div_pos; lia).
  set (q := (N / sample_size0)%Z) in *. set (r := (N mod sample_size0)%Z) in *.
  assert (Hrep : forall n : nat,
    fold_right Z.add 0%Z (repeat sample_size0 n) = (sample_size0 * Z.of_nat n)%Z).
  { induction n as [|n IH]; [reflexivity|]. cbn [repeat fold_right].
    rewrite IH. lia. }
  split.
  - rewrite fold_right_app.
    assert (Hacc : forall (l : list Z) (a : Z),
      fold_right Z.add a l = (fold_right Z.add 0 l + a)%Z).
    { induction l as [|b l IH]; intros a; cbn [fold_right]; [lia|].
      rewrite IH. lia. }
    rewrite Hacc, Hrep, Z2Nat.id by lia.
    destruct (Z.eqb_spec r 0); cbn [fold_right]; lia.
  - apply Forall_app. split.
    + apply Forall_forall. intros b Hb. apply list_elem_of_In in Hb.
      apply repeat_spec in Hb. subst b. lia.
    + destruct (Z.eqb_spec r 0); constructor; [lia | constructor].
Qed.

End BatchSizes.

Section NormalizeFacts.
Context {F : Type} `{Sampling F}.

Lemma mcint_loop_batches (f : matrix F -> res (list F)) (vert : matrix F)
  (smp : list (list nat)) (lb ub : list F) (N : Z) :
  forall (fuel : nat) (count size : Z) (G : halton_state) (soln : F),
  (count <= N)%Z ->
  size = sample_size0 \/ count = N ->
  length (batch_sizes (N - count)) <= fuel ->
  mcint_loop fuel f vert smp lb ub N count size G soln
  = integrate_batches f vert smp lb ub (batch_sizes (N - count)) G soln.
Proof.
  induction fuel as [|fuel IH]; intros count size G soln Hle Hsize Hfuel;
    cbn [mcint_loop]; destruct (Z.ltb_spec count N) as [Hlt|Hge].
  - destruct (Z_lt_ge_dec (N - count) sample_size0) as [Hs|Hs].
    + rewrite batch_sizes_small in Hfuel by lia. cbn in Hfuel. lia.
    + rewrite batch_sizes_step in Hfuel by lia. cbn in Hfuel. lia.
  - replace (N - count)%Z with 0%Z by lia. reflexivity.
  - destruct Hsize as [->|Hc]; [|lia].
    destruct (Z.gtb_spec (count + sample_size0) N) as [Hlast|Hfull].
    + rewrite batch_sizes_small by lia. cbn [integrate_batches].
      destruct (lift (sample_batch _ _ _ _ _ _ _)) as [vG| |]; cbn [mc_bind];
        try reflexivity.
      destruct (lift (vew2 fsub ub lb)) as [w| |]; cbn [mc_bind];
        try reflexivity.
      rewrite IH; [|lia|right; lia|].
      * replace (N - (count + (N - count)))%Z with 0%Z by lia. reflexivity.
      * replace (N - (count + (N - count)))%Z with 0%Z by lia.
        rewrite batch_sizes_zero. cbn [length]. lia.
    + rewrite batch_sizes_step by lia. cbn [integrate_batches].
      destruct (lift (sample_batch _ _ _ _ _ _ _)) as [vG| |]; cbn [mc_bind];
        try reflexivity.
      destruct (lift (vew2 fsub ub lb)) as [w| |]; cbn [mc_bind];
        try reflexivity.
      rewrite batch_sizes_step in Hfuel by lia. cbn [length] in Hfuel.
      rewrite IH; [|lia|left; reflexivity|].
      * now replace (N - (count + sample_size0))%Z
          with (N - count - sample_size0)%Z by lia.
      * replace (N - (count + sample_size0))%Z
          with (N - count - sample_size0)%Z by lia. lia.
  - replace (N - count)%Z with 0%Z by lia. reflexivity.
Qed.

(** X11: [mcint] over [N > 0] samples draws them in batches of one million and
    a remainder: the batch sizes are positive, none exceeds the sample size,
    they add up to [N], and the result is the accumulated sum over exactly
    these batches divided by [N]. *)
Theorem mcint_batches (fuel : nat) (f : matrix F -> res (list F))
  (vert : matrix F) (smp : list (list nat)) (N : Z) (lb ub : list F) :
  is_valid smp = true ->
  amin0 vert = Ok lb -> amax0 vert = Ok ub ->
  (0 < N)%Z -> length (batch_sizes N) <= fuel ->
  mcint fuel f vert smp (Some N)
  = (soln <~ integrate_batches f vert smp lb ub (batch_sizes N)
               (halton_new (length lb)) (of_int 0) ;;
     Return (NpFloat (fdiv soln (of_int N)))) /\
  fold_right Z.add 0%Z (batch_sizes N) = N /\
  Forall (fun b => (0 < b <= sample_size0)%Z) (batch_sizes N).
Proof.
  intros Hv Hlb Hub HN Hfuel. split; [|apply batch_sizes_sum; lia].
  unfold mcint. rewrite Hv, Hlb, Hub. cbn [negb lift mc_bind].
  rewrite mcint_loop_batches; [|lia|left; reflexivity|now rewrite Z.sub_0_r].
  rewrite Z.sub_0_r.
  destruct (integrate_batches _ _ _ _ _ _ _ _); cbn [mc_bind]; try reflexivity.
  destruct (Z.ltb_spec 0 N); [reflexivity | lia].
Qed.

(** X12: [mcint] and [mcmax] asked for no sample draw none: [mcint] raises
    [ZeroDivisionError] for [N = 0] and returns [0/N] for a negative [N];
    [mcmax] returns [-inf]. *)
Theorem monte_carlo_no_samples (fuel : nat) (f : matrix F -> res (list F))
  (vert : matrix F) (smp : list (list nat)) (N : Z) (lb ub : list F) :
  is_valid smp = true ->
  amin0 vert = Ok lb -> amax0 vert = Ok ub ->
  (N <= 0)%Z ->
  mcint fuel f vert smp (Some N)
  = (if (N =? 0)%Z then Throw ZeroDivisionError
     else Return (PyFloat (fdiv (of_int 0) (of_int N)))) /\
  mcmax fuel f vert smp (Some N) = Return neg_inf.
Proof.
  intros Hv Hlb Hub HN. unfold mcint, mcmax.
  rewrite Hv, Hlb, Hub. cbn [negb lift mc_bind].
  assert (Hc : (0 <? N)%Z = false) by (apply Z.ltb_ge; lia).
  split.
  - destruct fuel; cbn [mcint_loop]; rewrite Hc; reflexivity.
  - destruct fuel; cbn [mcmax_loop]; now rewrite Hc.
Qed.

(** X13: [mcmax] fails with numpy's [ValueError] when the first batch holds no
    point of the domain: [np.max] has nothing to reduce. *)
Theorem mcmax_empty_batch (fuel : nat) (f : matrix F -> res (list F))
  (vert : matrix F) (smp : list (list nat)) (N : Z) (lb ub : list F)
  (G' : halton_state) :
  is_valid smp = true ->
  amin0 vert = Ok lb -> amax0 vert = Ok ub ->
  (0 < N)%Z -> 1 <= fuel ->
  sample_batch f vert smp lb ub (halton_new (length lb))
    (Z.min N sample_size0) = Ok ([], G') ->
  mcmax fuel f vert smp (Some N) = Throw (Lib ValueError).
Proof.
  intros Hv Hlb Hub HN Hfuel Hb. unfold mcmax.
  rewrite Hv, Hlb, Hub. cbn [negb lift mc_bind].
  destruct fuel as [|fuel]; [lia|]. cbn [mcmax_loop].
  destruct (Z.ltb_spec 0 N); [|lia].
  assert (Hsz : (if (0 + sample_size0 >? N)%Z then (N - 0)%Z else sample_size0)
                = Z.min N sample_size0)
    by (destruct (Z.gtb_spec (0 + sample_size0) N); lia).
  rewrite Hsz, Hb. reflexivity.
Qed.

(** X14: [normalize] with a [kind] that is none of ['integral'], ['max'] and
    ['density'] fails with [UnboundLocalError], and with ['density'] and no
    [nodes] with [ValueError]; in both cases nothing is sampled, whatever the
    function, the domain and [N]. *)
Theorem normalize_rejects (fuel : nat) (fin : matrix F -> res (list F))
  (vert : matrix F) (smp : list (list nat)) (kind : string) (N nodes : option Z) :
  (kind <> "integral" -> kind <> "max" -> kind <> "density" ->
   normalize fuel fin vert smp kind N nodes = Throw UnboundLocalError) /\
  (kind = "density" ->
   normalize fuel fin vert smp kind N None = Throw (Lib ValueError)).
Proof.
  split.
  - intros H1 H2 H3. unfold normalize.
    apply String.eqb_neq in H1, H2, H3. now rewrite H1, H2, H3.
  - intros ->. reflexivity.
Qed.

(** X15: when [normalize] returns a function, [kind] was one of the three
    known ones and the function is [fin(p)/denom] for one denominator fixed at
    that time: the Monte Carlo integral for ['integral'], the Monte Carlo
    maximum for ['max'], the integral over [nodes] for ['density']; and that
    denominator did not compare equal to [0.0]. *)
Theorem normalize_returns (fuel : nat) (fin : matrix F -> res (list F))
  (vert : matrix F) (smp : list (list nat)) (kind : string) (N : option Z)
  (nodes : option Z) (g : matrix F -> res (list F)) :
  normalize fuel fin vert smp kind N nodes = Return g ->
  exists d : F,
    feq d (of_int 0) = false /\
    g = (fun p => v <- fin p ;; Ok (map (fun a => fdiv a d) v)) /\
    ((kind = "integral" /\
      exists dn, mcint fuel fin vert smp N = Return dn /\ d = num_value dn) \/
     (kind = "max" /\ mcmax fuel fin vert smp N = Return d) \/
     (kind = "density" /\
      exists n dn, nodes = Some n /\ mcint fuel fin vert smp N = Return dn /\
                   div_nodes dn n = Return d)).
Proof.
  unfold normalize. intros Hg.
  destruct (String.eqb_spec kind "integral") as [->|H1].
  - cbn [String.eqb Ascii.eqb Bool.eqb] in Hg.
    destruct (mcint fuel fin vert smp N) as [dn| |]; cbn [mc_bind] in Hg;
      try discriminate.
    destruct (feq (num_value dn) (of_int 0)) eqn:Hz; [discriminate|].
    exists (num_value dn). split; [assumption|]. split; [congruence|].
    left. split; [reflexivity|]. now exists dn.
  - cbn [mc_bind] in Hg.
    destruct (String.eqb_spec kind "max") as [->|H2].
    + cbn [String.eqb Ascii.eqb Bool.eqb] in Hg.
      destruct (mcmax fuel fin vert smp N) as [d| |]; cbn [mc_bind] in Hg;
        try discriminate.
      destruct (feq d (of_int 0)) eqn:Hz; [discriminate|].
      exists d. split; [assumption|]. split; [congruence|].
      right. left. now split.
    + cbn [mc_bind] in Hg.
      destruct (String.eqb_spec kind "density") as [->|H3].
      * destruct nodes as [n|]; [|discriminate].
        destruct (mcint fuel fin vert smp N) as [dn| |] eqn:Hm;
          cbn [mc_bind] in Hg; try discriminate.
        destruct (div_nodes dn n) as [d| |] eqn:Hq; cbn [mc_bind] in Hg;
          try discriminate.
        destruct (feq d (of_int 0)) eqn:Hz; [discriminate|].
        exists d. split; [assumption|]. split; [congruence|].
        right. right. split; [reflexivity|]. now exists n, dn.
      * discriminate.
Qed.

End NormalizeFacts.

(** ** The comparisons of binary64 *)

(** By the specification of the kernel's floats, [<=] is a total preorder on
    the floats that are not a nan: a list of floats is ordered as soon as
    none of them is a nan. *)
Ltac sf_cases :=
  repeat match goal with
         | |- context [(?a ?= ?b)%Z] => destruct (Z.compare_spec a b)
         | |- context [PosDef.Pos.compare_cont Eq ?a ?b] =>
             change (PosDef.Pos.compare_cont Eq a b) with (Pos.compare a b);
             destruct (Pos.compare_spec a b)
         end.

Lemma SFleb_total (x y : spec_float) :
  x <> S754_nan -> y <> S754_nan -> SFleb x y = false -> SFleb y x = true.
Proof.
  unfold SFleb, SFcompare.
  destruct x as [sx|sx| |sx mx ex], y as [sy|sy| |sy my ey];
    try congruence; intros _ _;
    try destruct sx; try destruct sy; try (intros; reflexivity);
    try discriminate;
    sf_cases; cbn [CompOpp];
    subst; try lia; try discriminate; try reflexivity.
Qed.

Lemma SFleb_trans (x y z : spec_float) :
  x <> S754_nan -> y <> S754_nan -> z <> S754_nan ->
  SFleb x y = true -> SFleb y z = true -> SFleb x z = true.
Proof.
  unfold SFleb, SFcompare.
  destruct x as [sx|sx| |sx mx ex], y as [sy|sy| |sy my ey],
           z as [sz|sz| |sz mz ez];
    try congruence; intros _ _ _;
    try destruct sx; try destruct sy; try destruct sz;
    try (intros; reflexivity); try discriminate;
    try (intros _; discriminate);
    sf_cases; cbn [CompOpp];
    subst; try lia; try discriminate; try reflexivity.
Qed.

Lemma number_of_not_nan (a : float) :
  PrimFloat.is_nan a = false -> Prim2SF a <> S754_nan.
Proof.
  unfold PrimFloat.is_nan. rewrite FloatAxioms.eqb_spec.
  unfold SFeqb, SFcompare.
  intros Hn E. rewrite E in Hn. discriminate.
Qed.

Lemma float_ordered_on (l : list float) :
  (forall a, In a l -> PrimFloat.is_nan a = false) -> ordered_on l.
Proof.
  intros Hl. split.
  - intros a b c Ha Hb Hc. cbn [fle float_scalar]. rewrite !FloatAxioms.leb_spec.
    apply SFleb_trans; apply number_of_not_nan; auto.
  - intros a b Ha Hb.
    cbn [fle fminimum fmaximum float_scalar].
    unfold float_minimum, float_maximum. rewrite (Hl a Ha), (Hl b Hb).
    split; [|split; reflexivity].
    rewrite !FloatAxioms.leb_spec. apply SFleb_total; apply number_of_not_nan; auto.
Qed.

(** ** The properties at the examples *)

Lemma coefficient_matrix_symmetric_witness :
  exists A : matrix float,
    coefficient_matrix x_two [1%float; 1%float] 0 = Ok A /\
    forall i j, i < 2 + 1 -> j < 2 + 1 -> mget A i j = mget A j i.
Proof.
  refine (coefficient_matrix_symmetric x_two [1%float; 1%float] 0 eq_refl _).
  intros i j Hi Hj. cbn in Hi, Hj.
  destruct i as [|[|i]], j as [|[|j]]; try reflexivity; lia.
Defined.

Lemma interpolation_matrix_layout_witness :
  exists A : matrix float,
    interpolation_matrix q_line x_two None [1%float; 1%float] 0 = Ok A /\
    nrows A = 5 /\ ncols A = 2 + 1 /\
    (forall i j, i < 5 -> j < 2 ->
       mget A i j
       = phi None (row q_line i) (row x_two j)
           (nth j [1%float; 1%float] (of_int 0))) /\
    (forall i j, i < 5 -> j < 1 ->
       mget A i (2 + j)
       = monomial None (row q_line i) (nth j (monomial_powers 0 1) [])).
Proof.
  exact (interpolation_matrix_layout q_line x_two None [1%float; 1%float] 0
           eq_refl).
Defined.

Lemma init_frame_witness :
  snd (RBFInterpolant_init x_one (NdArray 7) (Some (PyList [2%float])) None 0
         true nan (Fixed 0%float) {[7 := [5%float]; 8 := [1%float]]}) !! 8
  = ({[7 := [5%float]; 8 := [1%float]]} : gmap loc (list float)) !! 8.
Proof.
  apply (init_frame x_one (NdArray 7) (Some (PyList [2%float])) None 0 true
           nan (Fixed 0%float) {[7 := [5%float]; 8 := [1%float]]} 8).
  discriminate.
Defined.

Lemma init_failure_store_witness :
  let h : gmap loc (list float) :=
    {[7 := [5%float; 6%float; 7%float; 8%float]]} in
  let init := RBFInterpolant_init x_two (NdArray 7) (Some (PyList [2%float]))
                None 0 true nan (Fixed 0%float) h in
  (1 <> 2 -> 1 <> 1 -> init = (Raise ValueError, h)) /\
  (1 = 2 \/ 1 = 1 -> 1 = 4 \/ 1 = 1 -> 2 + 1 < 4 ->
   init = (Raise ValueError,
           <[7 := map (fun i =>
                    fmul (nth i [5%float; 6%float; 7%float; 8%float] (of_int 0))
                         (vget [2%float] i))
                  (seq 0 4)]> h)).
Proof.
  exact (init_failure_store x_two 7 (Some (PyList [2%float])) None 0 true nan
           (Fixed 0%float) {[7 := [5%float; 6%float; 7%float; 8%float]]}
           [5%float; 6%float; 7%float; 8%float] [2%float]
           eq_refl eq_refl eq_refl).
Defined.

Lemma init_stores_fit_witness :
  let itp := Interpolant x_one [0%float; 5%float] 0 [1%float] true nan in
  itp_x itp = x_one /\ itp_order itp = 0 /\
  itp_extrapolate itp = true /\ itp_fill itp = nan /\
  itp_eps itp = ones1 (nrows x_one) /\
  length (itp_eps itp) = nrows x_one /\
  length (itp_coeff itp)
  = nrows x_one + length (monomial_powers 0 (ncols x_one)).
Proof.
  exact (init_stores_fit x_one (NdArray 7) (Some (PyList [2%float])) None 0
           true nan (Fixed 0%float) {[7 := [5%float]]}
           (Interpolant x_one [0%float; 5%float] 0 [1%float] true nan)
           diag_inv_keeps_shape eq_refl).
Defined.

Lemma call_extrapolating_witness :
  let itp := Interpolant x_two [1%float; 2%float; 3%float] 0
               [1%float; 1%float] true nan in
  RBFInterpolant_call 5 itp q_line None
  = Ok (map (fun i => interpolate_point itp None (row q_line i)) (seq 0 5)).
Proof.
  exact (call_extrapolating
           (Interpolant x_two [1%float; 2%float; 3%float] 0
              [1%float; 1%float] true nan)
           q_line None 5 (conj eq_refl eq_refl) eq_refl eq_refl (le_n 5)).
Defined.

Lemma call_at_training_points_witness :
  ordered_on (flatten x_line) /\
  RBFInterpolant_call 3 itp_line x_line None
  = Ok (map (fun i => interpolate_point itp_line None (row x_line i))
            (seq 0 3)).
Proof.
  assert (Hord : ordered_on (flatten x_line)).
  { apply float_ordered_on. intros a Ha. cbn in Ha.
    destruct Ha as [<-|[<-|[<-|[]]]]; reflexivity. }
  split; [exact Hord|].
  exact (call_at_training_points itp_line None 3 (conj eq_refl eq_refl) eq_refl
           (le_S 1 2 (le_S 1 1 (le_n 1))) Hord (le_n 3)).
Defined.

Lemma call_applies_system_rows_witness :
  let itp := Interpolant x_two [1%float; 2%float; 3%float] 0
               [1%float; 1%float] true nan in
  RBFInterpolant_call 2 itp x_two None
  = Ok (firstn 2 [5%float; 4%float; 3%float]).
Proof.
  exact (call_applies_system_rows
           (Interpolant x_two [1%float; 2%float; 3%float] 0
              [1%float; 1%float] true nan)
           (of_rows [[0%float; 1%float; 1%float];
                     [1%float; 0%float; 1%float];
                     [1%float; 1%float; 0%float]])
           [5%float; 4%float; 3%float] 2
           (conj eq_refl eq_refl) eq_refl (le_n 2) eq_refl eq_refl).
Defined.

Lemma mcint_batches_witness :
  mcint 1 coordinate segment segment_smp (Some 3%Z)
  = (soln <~ integrate_batches coordinate segment segment_smp
               [0%float] [2%float] (batch_sizes 3) (halton_new 1) (of_int 0) ;;
     Return (NpFloat (fdiv soln (of_int 3)))) /\
  fold_right Z.add 0%Z (batch_sizes 3) = 3%Z /\
  Forall (fun b => (0 < b <= sample_size0)%Z) (batch_sizes 3).
Proof.
  exact (mcint_batches 1 coordinate segment segment_smp 3 [0%float] [2%float]
           eq_refl eq_refl eq_refl eq_refl (le_n 1)).
Defined.

Lemma monte_carlo_no_samples_witness :
  mcint 0 coordinate segment segment_smp (Some 0%Z) = Throw ZeroDivisionError /\
  mcmax 0 coordinate segment segment_smp (Some 0%Z) = Return neg_inf.
Proof.
  exact (monte_carlo_no_samples 0 coordinate segment segment_smp 0
           [0%float] [2%float] eq_refl eq_refl eq_refl (Z.le_refl 0)).
Defined.

Lemma mcmax_empty_batch_witness :
  mcmax 1 coordinate segment point_smp (Some 4%Z) = Throw (Lib ValueError).
Proof.
  exact (mcmax_empty_batch 1 coordinate segment point_smp 4
           [0%float] [2%float] (1, 4%Z)
           eq_refl eq_refl eq_refl eq_refl (le_n 1) eq_refl).
Defined.

Lemma normalize_returns_witness :
  exists d : float,
    feq d (of_int 0) = false /\
    (fun p => v <- coordinate p ;; Ok (map (fun a => fdiv a 1.625%float) v))
    = (fun p => v <- coordinate p ;; Ok (map (fun a => fdiv a d) v)) /\
    (("integral" = "integral" /\
      exists dn, mcint 1 coordinate segment segment_smp (Some 4%Z) = Return dn
                 /\ d = num_value dn) \/
     ("integral" = "max" /\
      mcmax 1 coordinate segment segment_smp (Some 4%Z) = Return d) \/
     ("integral" = "density" /\
      exists n dn, None = Some n /\
        mcint 1 coordinate segment segment_smp (Some 4%Z) = Return dn /\
        div_nodes dn n = Return d)).
Proof.
  exact (normalize_returns 1 coordinate segment segment_smp "integral"
           (Some 4%Z) None
           (fun p => v <- coordinate p ;;
                     Ok (map (fun a => fdiv a 1.625%float) v))
           eq_refl).
Defined.

(** The values of the sampling examples, computed. *)
Lemma sampling_examples_computed :
  mcint 1 coordinate segment segment_smp (Some 3%Z) = Return (NpFloat 2%float) /\
  mcint 1 coordinate segment segment_smp (Some 4%Z)
  = Return (NpFloat 1.625%float) /\
  mcmax 1 coordinate segment segment_smp (Some 4%Z) = Return 1.5%float /\
  mcint 0 coordinate segment segment_smp (Some (-2)%Z)
  = Return (PyFloat (-0)%float) /\
  mcint 1 coordinate segment [] (Some 4%Z) = Throw AssertionError /\
  (g <~ normalize 1 coordinate segment segment_smp "max" (Some 4%Z) None ;;
   lift (g (of_rows [[1%float]; [3%float]])))
  = Return [PrimFloat.div 1 1.5; 2%float] /\
  (g <~ normalize 1 zero_function segment segment_smp "integral" (Some 4%Z)
          None ;;
   lift (g (of_rows [[1%float]])))
  = Throw (Lib ValueError) /\
  (g <~ normalize_decorator 1 segment segment_smp "density" (Some 4%Z)
          (Some 0%Z) coordinate ;;
   lift (g (of_rows [[1%float]])))
  = Return [0%float] /\
  RBFInterpolant_call 3 itp_line x_line None
  = Ok [58.375%float; 77.875%float; 35.375%float].
Proof.
  repeat split; vm_compute; reflexivity.
Qed.
